(** * Identity map and savepoint stack of the context-aware ORM layer

    A shallow embedding of [context_manager.py] (class [ContextManager] and
    the pre-delete signal handler) and of [context_aware_model.py]
    ([ContextAwareManager], [RegisteringQuerySet], [ContextAwareModelBase],
    [ContextAwareModel]), followed by the properties established about them.

    Python objects are records carrying an object identity; a method that
    mutates [self] is a function from the state before to an outcome and the
    state after, so that a mutation survives an exception as it does in
    Python.  Of a logging call only the evaluation of its arguments is
    modelled: reading an attribute that the object lacks raises, as it does
    in Python; the record written is not. *)

From stdpp Require Import gmap strings pretty list fin_maps.

From Stdlib Require Import ZArith Lia.

From Equations Require Import Equations.

Set Warnings "-register-all".

Local Open Scope string_scope.

Local Open Scope list_scope.

(** * The program *)

(** ** Python values *)

(** The values that occur as primary keys, as attribute values and as the
    values of lookup criteria: [None], integers, strings and [uuid.UUID]
    objects (a UUID is its 128-bit integer). *)
Inductive pyval : Type :=
| PyNone
| PyInt (n : Z)
| PyStr (s : string)
| PyUUID (u : Z).

#[global] Instance pyval_eq_dec : EqDecision pyval.
Proof. solve_decision. Defined.

Definition pyval_enc (v : pyval) : unit + Z + string + Z :=
  match v with
  | PyNone => inl (inl (inl tt))
  | PyInt n => inl (inl (inr n))
  | PyStr s => inl (inr s)
  | PyUUID u => inr u
  end.

Definition pyval_dec (x : unit + Z + string + Z) : pyval :=
  match x with
  | inl (inl (inl _)) => PyNone
  | inl (inl (inr n)) => PyInt n
  | inl (inr s) => PyStr s
  | inr u => PyUUID u
  end.

#[global] Instance pyval_countable : Countable pyval.
Proof. refine (inj_countable' pyval_enc pyval_dec _). by intros []. Defined.

(** Truth value of a Python value in a condition: [None], [0] and the empty
    string are false; [uuid.UUID] defines neither [__nonzero__] nor
    [__len__], so every UUID is true. *)
Definition truthy (v : pyval) : bool :=
  match v with
  | PyNone => false
  | PyInt n => negb (n =? 0)%Z
  | PyStr s => negb (String.eqb s "")
  | PyUUID _ => true
  end.

(** [v is not None] *)
Definition is_not_None (v : pyval) : bool :=
  match v with PyNone => false | _ => true end.

(** [isinstance( v, uuid.UUID )] *)
Definition isinstance_UUID (v : pyval) : bool :=
  match v with PyUUID _ => true | _ => false end.

(** ** Entities *)

(** What [hasattr( entity, "canBeRegd" ) and callable( entity.canBeRegd )]
    finds on an object: nothing, the method inherited from
    [ContextAwareModel], or a subclass override (with the answer it gives
    for this instance). *)
Inductive policy : Type :=
| NoHook
| ModelHook
| OverrideHook (answer : bool).

(** A model instance.  [oid] is the identity of the Python object ([id]);
    two instances are the same object exactly when their [oid]s agree.
    [cls] is [__class__.__name__]. *)
Record Entity : Type := mkEntity {
  oid : nat;
  cls : string;
  pk : pyval;
  canBeRegd_attr : policy;
  attrs : gmap string pyval
}.

(** [getattr( obj, name, None )] *)
Definition getattr_or_None (obj : Entity) (name : string) : pyval :=
  default PyNone (attrs obj !! name).

(** [ContextAwareModel.canBeRegd] *)
Definition canBeRegd (self : Entity) : bool := is_not_None (pk self).

(** ** State *)

(** Savepoint identifiers handed out by [transaction.savepoint()]. *)
Definition handle : Type := string.

(** A queued save, identified by a number. *)
Definition write : Type := nat.

(** Calls into [django.db.transaction] and executions of queued saves, in
    the order in which they are made. *)
Inductive call : Type :=
| CSavepoint
| CSavepointCommit (sid : handle)
| CSavepointRollback (sid : handle)
| CEnterTransactionManagement
| CManaged (flag : bool)
| CCommit
| CRollback
| CLeaveTransactionManagement
| CWrite (w : write).

#[global] Instance call_eq_dec : EqDecision call.
Proof. solve_decision. Defined.

Inductive exn : Type :=
| ValueError (msg : string)
| KeyError
| DoesNotExist
| DatabaseError (code : nat)
| UserError (tag : nat)
| NoAttribute (name : string).

#[global] Instance exn_eq_dec : EqDecision exn.
Proof. solve_decision. Defined.

(** The state reachable from one [ContextManager]: its fields
    [pkRegistry] and [savepoints], the queue of deferred saves, whether
    [ContextManager.s_instances] maps the current thread to this manager,
    the calls made so far to the persistence layer, and the next free object
    identity. *)
Record world : Type := World {
  pkRegistry : gmap (string * pyval) Entity;
  savepoints : list handle;
  queuedSaves : list write;
  s_instances : bool;
  tx_log : list call;
  next_oid : nat
}.

Definition set_pkRegistry (f : gmap (string * pyval) Entity → gmap (string * pyval) Entity)
    (w : world) : world :=
  World (f (pkRegistry w)) (savepoints w) (queuedSaves w) (s_instances w)
        (tx_log w) (next_oid w).

Definition set_savepoints (f : list handle → list handle) (w : world) : world :=
  World (pkRegistry w) (f (savepoints w)) (queuedSaves w) (s_instances w)
        (tx_log w) (next_oid w).

Definition set_queuedSaves (f : list write → list write) (w : world) : world :=
  World (pkRegistry w) (savepoints w) (f (queuedSaves w)) (s_instances w)
        (tx_log w) (next_oid w).

Definition set_tx_log (f : list call → list call) (w : world) : world :=
  World (pkRegistry w) (savepoints w) (queuedSaves w) (s_instances w)
        (f (tx_log w)) (next_oid w).

Definition set_next_oid (f : nat → nat) (w : world) : world :=
  World (pkRegistry w) (savepoints w) (queuedSaves w) (s_instances w)
        (tx_log w) (f (next_oid w)).

(** ** Computations that mutate the state and may raise *)

Inductive result (A : Type) : Type :=
| Ok (a : A)
| Raise (e : exn).

Arguments Ok {A} a.

Arguments Raise {A} e.

Definition M (A : Type) : Type := world → result A * world.

Definition ret {A} (a : A) : M A := λ w, (Ok a, w).

Definition raise {A} (e : exn) : M A := λ w, (Raise e, w).

Definition bind {A B} (m : M A) (k : A → M B) : M B :=
  λ w, match m w with
       | (Ok a, w') => k a w'
       | (Raise e, w') => (Raise e, w')
       end.

Declare Scope py_scope.

Delimit Scope py_scope with py.

Notation "x <- m ;; k" := (bind m (λ x, k))
  (at level 100, m at next level, right associativity) : py_scope.

Notation "m ;; k" := (bind m (λ _, k))
  (at level 100, right associativity) : py_scope.

Local Open Scope py_scope.

(** [try: body finally: cleanup] — the cleanup runs on both outcomes of the
    body, and an exception of the cleanup replaces the body's outcome. *)
Definition try_finally {A} (body : M A) (cleanup : M unit) : M A :=
  λ w, let '(r, w1) := body w in
       match cleanup w1 with
       | (Ok _, w2) => (r, w2)
       | (Raise e, w2) => (Raise e, w2)
       end.

Definition when (b : bool) (m : M unit) : M unit :=
  if b then m else ret tt.

(** [for x in xs: body( x )] *)
Fixpoint for_each {A} (xs : list A) (body : A → M unit) : M unit :=
  match xs with
  | [] => ret tt
  | x :: xs' => body x ;; for_each xs' body
  end.

(** A generator consumed to its end: the results of [f] in order. *)
Fixpoint yield_each {A B} (xs : list A) (f : A → M B) : M (list B) :=
  match xs with
  | [] => ret []
  | x :: xs' => y <- f x ;; ys <- yield_each xs' f ;; ret (y :: ys)
  end.

(** ** [ContextManager]: the registry *)

(** The test at the head of [regd]. *)
Definition isRegisterable (entity : option Entity) : bool :=
  match entity with
  | None => false
  | Some e =>
      match canBeRegd_attr e with
      | ModelHook => canBeRegd e
      | OverrideHook answer => answer
      | NoHook => truthy (pk e)
      end
  end.

Definition regkey (e : Entity) : string * pyval := (cls e, pk e).

(** [ContextManager.regd] *)
Definition regd (entity : option Entity) : M (option Entity) :=
  λ self,
    if isRegisterable entity then
      match entity with
      | Some e =>
          match pkRegistry self !! regkey e with
          | None => (Ok (Some e), set_pkRegistry (insert (regkey e) e) self)
          | Some cached => (Ok (Some cached), self)
          end
      | None => (Ok entity, self)
      end
    else (Ok entity, self).

(** [ContextManager.allRegd], consumed to its end *)
Definition allRegd (entities : list (option Entity)) : M (list (option Entity)) :=
  yield_each entities regd.

(** [obj.name] as an argument of a call: the value of the attribute, or an
    [AttributeError] ([NoAttribute]) when the object has none of that name. *)
Definition read_attr (obj : Entity) (name : string) : M pyval :=
  match attrs obj !! name with
  | Some v => ret v
  | None => raise (NoAttribute name)
  end.

(** [ContextManager.regdLookup]; [fetchFunc] is [None] or a callable.  The
    log call after a successful fetch reads [ret.entityType] before [regd]
    is called. *)
Definition regdLookup (entityType : string) (key : pyval)
    (fetchFunc : option (M (option Entity))) : M (option Entity) :=
  λ self,
    match pkRegistry self !! (entityType, key) with
    | Some cached => (Ok (Some cached), self)
    | None =>
        match fetchFunc with
        | Some fetch =>
            (r <- fetch ;;
             match r with
             | Some e => read_attr e "entityType" ;; regd (Some e)
             | None => ret None
             end) self
        | None => (Ok None, self)
        end
    end.

(** [ContextManager.registeredEntities], consumed to its end: the pairs
    [(pk, obj)] in the iteration order of the dictionary. *)
Definition registeredEntities (entityType : string) (self : world) : list (pyval * Entity) :=
  omap (λ '((t, k), obj), if decide (t = entityType) then Some (k, obj) else None)
       (map_to_list (pkRegistry self)).

(** [ContextManager.flushRegistry] *)
Definition flushRegistry : M unit :=
  λ self, (Ok tt, set_pkRegistry (λ _, ∅) self).

(** [ContextManager.ejectFromRegistry] *)
Definition ejectFromRegistry (obj : Entity) : M unit :=
  λ self,
    let key := regkey obj in
    match pkRegistry self !! key with
    | Some _ => (Ok tt, set_pkRegistry (delete key) self)
    | None => (Ok tt, self)
    end.

(** [ContextManager.current] *)
Definition current (noneOnLookupFailure : bool) : M bool :=
  λ w, if s_instances w then (Ok true, w)
       else if noneOnLookupFailure then (Ok false, w)
       else (Raise KeyError, w).

(** [onPreDeleteSignal] *)
Definition onPreDeleteSignal (instance : Entity) : M unit :=
  context <- current true ;;
  if context then ejectFromRegistry instance else ret tt.

(** ** The persistence layer *)

(** [django.db.transaction] is outside the repository.  Its behaviour is a
    parameter: which identifier [savepoint()] returns, whether a call
    raises, and what [is_managed()] answers, each as a function of the calls
    made so far. *)
Record Persistence : Type := mkPersistence {
  sp_fresh : list call → handle;
  tx_raises : list call → call → option exn;
  tx_managed : list call → bool
}.

(** Number of [enter_transaction_management] calls not yet matched by a
    [leave_transaction_management]. *)
Definition tm_delta (c : call) : Z :=
  match c with
  | CEnterTransactionManagement => 1
  | CLeaveTransactionManagement => -1
  | _ => 0
  end.

Definition open_transactions (log : list call) : Z :=
  foldr (λ c n, tm_delta c + n)%Z 0%Z log.

(** The state after the pending writes have been executed, and after they
    have been dropped. *)
Definition fired (w : world) : world :=
  World (pkRegistry w) (savepoints w) [] (s_instances w)
        (tx_log w ++ (CWrite <$> queuedSaves w)) (next_oid w).

Definition aborted (w : world) : world :=
  World (pkRegistry w) (savepoints w) [] (s_instances w) (tx_log w) (next_oid w).

(** The writes executed so far, in order. *)
Definition writes_of (log : list call) : list write :=
  omap (λ c, match c with CWrite x => Some x | _ => None end) log.

Section Savepoints.

Variable db : Persistence.

(** A call into the transaction module: it is recorded, then it returns or
    raises. *)
Definition tx_call (c : call) : M unit :=
  λ w, let w' := set_tx_log (λ l, l ++ [c]) w in
       match tx_raises db (tx_log w) c with
       | Some e => (Raise e, w')
       | None => (Ok tt, w')
       end.

(** [transaction.savepoint()] *)
Definition transaction_savepoint : M handle :=
  λ w, (tx_call CSavepoint ;; ret (sp_fresh db (tx_log w))) w.

(** [transaction.is_managed()] *)
Definition transaction_is_managed : M bool :=
  λ w, (Ok (tx_managed db (tx_log w)), w).

(** Modelled from the spec: [hasQueuedSaves], which [ContextManager] calls
    and does not define.  The deferred-write queue of the Context holds
    pending writes; the test is whether it is non-empty. *)
Definition hasQueuedSaves : M bool :=
  λ self, (Ok (negb (bool_decide (queuedSaves self = []))), self).

(** Modelled from the spec: [fireQueuedSaves], which [ContextManager] calls
    and does not define.  Flushing executes every pending write, in queue
    order, and leaves the queue empty. *)
Definition fireQueuedSaves : M unit :=
  λ self, (Ok tt, set_queuedSaves (λ _, [])
                    (set_tx_log (λ l, l ++ (CWrite <$> queuedSaves self)) self)).

(** Modelled from the spec: [abortAllQueuedSaves], which [ContextManager]
    calls and does not define.  The pending writes are discarded without
    being executed. *)
Definition abortAllQueuedSaves : M unit :=
  λ self, (Ok tt, set_queuedSaves (λ _, []) self).

(** Modelled from the spec: queueing a deferred write against the Context. *)
Definition queueSave (x : write) : M unit :=
  λ self, (Ok tt, set_queuedSaves (λ q, q ++ [x]) self).

(** [self.savepoints and (savepoint == self.savepoints[-1])] *)
Definition is_top (savepoint : handle) (stack : list handle) : bool :=
  match last stack with
  | Some top => bool_decide (savepoint = top)
  | None => false
  end.

Definition not_top_msg : string :=
  "You tried to commit a savepoint that wasn't at the top of the stack".

(** [ContextManager.pushSavepoint] *)
Definition pushSavepoint : M handle :=
  queued <- hasQueuedSaves ;;
  when queued fireQueuedSaves ;;
  sp <- transaction_savepoint ;;
  (λ self, (Ok tt, set_savepoints (λ l, l ++ [sp]) self)) ;;
  ret sp.

(** [ContextManager.commitSavepoint] *)
Definition commitSavepoint (savepoint : handle) : M unit :=
  queued <- hasQueuedSaves ;;
  when queued fireQueuedSaves ;;
  λ self,
    if is_top savepoint (savepoints self) then
      (tx_call (CSavepointCommit savepoint) ;;
       λ self, (Ok tt, set_savepoints (@removelast handle) self)) self
    else (Raise (ValueError not_top_msg), self).

(** [ContextManager.rollbackSavepoint] *)
Definition rollbackSavepoint (savepoint : handle) : M unit :=
  queued <- hasQueuedSaves ;;
  when queued abortAllQueuedSaves ;;
  λ self,
    if is_top savepoint (savepoints self) then
      (tx_call (CSavepointRollback savepoint) ;;
       λ self, (Ok tt, set_savepoints (@removelast handle) self)) self
    else (Raise (ValueError not_top_msg), self).

(** [ContextManager.__del__]: with savepoints left, the log call reads
    [self.account.name] first, then the loop runs over the copy
    [self.savepoints[::-1]].  [ContextManager] itself never sets [account]:
    [self_account] is what the attribute holds on this object, [None] when
    the object has none, and then the read is an [AttributeError]. *)
Definition ContextManager__del__ (self_account : option Entity) : M unit :=
  λ self,
    if bool_decide (savepoints self = []) then (Ok tt, self)
    else
      (match self_account with
       | Some account => read_attr account "name"
       | None => raise (NoAttribute "account")
       end ;;
       for_each (reverse (savepoints self)) rollbackSavepoint) self.

(** The object returned by [ContextManager.savepoint], in the state in which
    [__exit__] finds it: [__enter__] has assigned [self.savepoint]. *)
Record SavepointContext : Type := mkSavepointContext {
  sc_savepoint : handle;
  managingTransaction : bool
}.

(** [SavepointContext.__init__] computes [managingTransaction]. *)
Definition SavepointContext__init__ : M bool :=
  managed <- transaction_is_managed ;;
  ret (negb managed).

(** [SavepointContext.__enter__] *)
Definition SavepointContext__enter__ (managing : bool) : M SavepointContext :=
  when managing (tx_call CEnterTransactionManagement ;; tx_call (CManaged true)) ;;
  sp <- pushSavepoint ;;
  ret (mkSavepointContext sp managing).

(** [SavepointContext.__exit__]; [type] is the exception of the block, if
    any.  The method returns [None], so that exception is raised again by
    the [with] statement. *)
Definition SavepointContext__exit__ (sc : SavepointContext) (type : option exn) : M unit :=
  try_finally
    (match type with
     | None =>
         commitSavepoint (sc_savepoint sc) ;;
         when (managingTransaction sc) (tx_call CCommit)
     | Some _ =>
         rollbackSavepoint (sc_savepoint sc) ;;
         when (managingTransaction sc) (tx_call CRollback)
     end)
    (when (managingTransaction sc) (tx_call CLeaveTransactionManagement)).

(** [with mgr.savepoint(): body] *)
Definition with_savepoint {A} (body : M A) : M A :=
  managing <- SavepointContext__init__ ;;
  sc <- SavepointContext__enter__ managing ;;
  λ w, match body w with
       | (Ok a, w1) => (SavepointContext__exit__ sc None ;; ret a) w1
       | (Raise e, w1) => (SavepointContext__exit__ sc (Some e) ;; raise e) w1
       end.

(** ** Vocabulary for the savepoint properties *)

(** The operations that cross a savepoint boundary. *)
Inductive boundary : Type :=
| BPush
| BCommit (h : handle)
| BRollback (h : handle).

Definition run_boundary (b : boundary) : M unit :=
  match b with
  | BPush => pushSavepoint ;; ret tt
  | BCommit h => commitSavepoint h
  | BRollback h => rollbackSavepoint h
  end.

(** No call into the persistence layer raises. *)
Definition never_raises : Prop := ∀ log c, tx_raises db log c = None.

(** A block that leaves the savepoint stack and the number of open
    transaction-management levels as it found them. *)
Definition balanced {A} (body : M A) : Prop :=
  ∀ w, savepoints (body w).2 = savepoints w ∧
       open_transactions (tx_log (body w).2) = open_transactions (tx_log w).

(** What [__exit__] does to the savepoint, and the call on the outer
    transaction that follows it. *)
Definition exit_savepoint_step (sc : SavepointContext) (type : option exn) : M unit :=
  match type with
  | None => commitSavepoint (sc_savepoint sc)
  | Some _ => rollbackSavepoint (sc_savepoint sc)
  end.

Definition exit_outer_call (type : option exn) : call :=
  match type with None => CCommit | Some _ => CRollback end.

Definition release_calls (sc : SavepointContext) : list call :=
  if managingTransaction sc then [CLeaveTransactionManagement] else [].

(** The state in which the block starts: [__init__], then [__enter__]. *)
Definition scope_entry : M SavepointContext :=
  managing <- SavepointContext__init__ ;;
  SavepointContext__enter__ managing.

End Savepoints.

(** ** Model classes *)

Inductive exn_or (A : Type) : Type :=
| Fine (a : A)
| AttributeError.

Arguments Fine {A} a.

Arguments AttributeError {A}.

(** [f.rel] of a relational field *)
Record Rel : Type := mkRel {
  multiple : bool;
  parent_link : bool
}.

Record Field : Type := mkField {
  fname : string;
  rel : option Rel
}.

(** A model class: [__name__], [_meta.pk] ([None] when the class has no
    primary key field), [_meta.fields] and [_meta.parents], the concrete
    parent classes each with the field that links to it. *)
Inductive Model : Type :=
| mkModel (name : string) (pk_field : option Field) (fields : list Field)
          (parents : list (Model * Field)).

Definition mname (m : Model) : string :=
  match m with mkModel n _ _ _ => n end.

Definition meta_pk (m : Model) : option Field :=
  match m with mkModel _ p _ _ => p end.

Definition meta_fields (m : Model) : list Field :=
  match m with mkModel _ _ fs _ => fs end.

Definition meta_parents (m : Model) : list (Model * Field) :=
  match m with mkModel _ _ _ ps => ps end.

Fixpoint model_size (m : Model) : nat :=
  match m with
  | mkModel _ _ _ ps =>
      S (list_sum (map (λ p, match p with (parent, _) => model_size parent end) ps))
  end.

Definition queue_size (queue : list (Model * Field)) : nat :=
  list_sum (map (λ p, match p with (parent, _) => model_size parent end) queue).

(** ** [ContextAwareManager] *)

Record ContextAwareManager : Type := mkManager {
  model : Model;
  pkAttNames : gset string;
  parentEntityClasses : list Model;
  oneToOneAttNames : gmap string Field
}.

(** The [while queue:] loop of [contribute_to_class]; the result is
    [pkAttNames], [parentEntityClasses] and [parentClass] at its end. *)
Equations? parents_loop (queue : list (Model * Field)) (names : gset string)
    (classes : list Model) (parentClass : option Model)
    : gset string * list Model * option Model
    by wf (queue_size queue) lt :=
  parents_loop [] names classes parentClass := (names, classes, parentClass);
  parents_loop ((parent, toParentField) :: queue) names classes _ :=
    parents_loop (queue ++ meta_parents parent)
                 (names ∪ {[ fname toParentField +:+ "__pk" ]})
                 (classes ++ [parent])
                 (Some parent).
Proof.
  unfold queue_size. rewrite map_app, list_sum_app.
  destruct parent as [n p fs ps]. simpl. lia.
Qed.

(** [f.rel and not f.rel.multiple and not f.rel.parent_link] *)
Definition is_one_to_one (f : Field) : bool :=
  match rel f with
  | Some r => negb (multiple r) && negb (parent_link r)
  | None => false
  end.

(** [ContextAwareManager.contribute_to_class]; reading [.name] off a
    missing primary key of the last parent visited is an [AttributeError]. *)
Definition contribute_to_class (m : Model) : exn_or ContextAwareManager :=
  let '(names, classes, parentClass) :=
    parents_loop (meta_parents m) {[ "pk" ]} [] None in
  let names_or :=
    match parentClass with
    | Some parent =>
        match meta_pk parent with
        | Some f => Fine (names ∪ {[ fname f ]})
        | None => AttributeError
        end
    | None => Fine names
    end in
  match names_or with
  | Fine names =>
      let classes := reverse classes in
      let names :=
        match meta_pk m with
        | Some f => names ∪ {[ fname f ]}
        | None => names
        end in
      Fine (mkManager m names classes
              (foldl (λ d f, <[ fname f +:+ "__pk" := f ]> d) ∅
                     (filter (λ f, is_one_to_one f = true) (meta_fields m))))
  | AttributeError => AttributeError
  end.

(** [k.endswith( suffix )] *)
Definition endswith (k suffix : string) : bool :=
  (String.length suffix <=? String.length k)%nat &&
  String.eqb (String.substring (String.length k - String.length suffix)
                        (String.length suffix) k) suffix.

(** [k[:-len( suffix )]] for a [k] that ends with [suffix] *)
Definition drop_suffix (k suffix : string) : string :=
  String.substring 0 (String.length k - String.length suffix) k.

(** The key of the criterion as [get] compares it. *)
Definition strip_exact (k : string) : string :=
  if endswith k "__exact" then drop_suffix k "__exact" else k.

(** Positional arguments of a query ([Q] objects), passed on unread. *)
Definition qobject : Type := nat.

(** The scan of [get] over [context.registeredEntities]. *)
Definition scan_one_to_one (field : Field) (v : pyval)
    (candidates : list (pyval * Entity)) : option Entity :=
  snd <$> List.find
    (λ c, bool_decide (getattr_or_None c.2 (fname field +:+ "_id") = v))
    candidates.

(** [ContextAwareManager.get]; [super_get] is [Manager.get]. *)
Definition ContextAwareManager_get (self : ContextAwareManager)
    (super_get : list qobject → list (string * pyval) → M Entity)
    (args : list qobject) (kw : list (string * pyval)) : M (option Entity) :=
  let query := (e <- super_get args kw ;; ret (Some e)) in
  context <- current true ;;
  if context && (length kw =? 1)%nat then
    match kw with
    | (k, v) :: _ =>
        let k := strip_exact k in
        let isPK := isinstance_UUID v && bool_decide (k ∈ pkAttNames self) in
        if isPK then
          let fetchFunc := query in
          regdLookup (mname (model self)) v (Some fetchFunc)
        else
          match oneToOneAttNames self !! k with
          | Some field =>
              λ w, match scan_one_to_one field v
                           (registeredEntities (mname (model self)) w) with
                   | Some obj => (Ok (Some obj), w)
                   | None => query w
                   end
          | None => query
          end
    | [] => query
    end
  else query.

(** ** [RegisteringQuerySet] *)

(** [RegisteringQuerySet.iterator], consumed to its end; [self_context] is
    the context found by [__init__], [super_iterator] the rows that
    [QuerySet.iterator] produces. *)
Definition RegisteringQuerySet_iterator (self_context : bool)
    (super_iterator : M (list Entity)) : M (list (option Entity)) :=
  results <- super_iterator ;;
  yield_each results
    (λ result, if self_context then regd (Some result) else ret (Some result)).

(** ** [ContextAwareModelBase] *)

(** [ContextAwareModelBase.__call__]: the arguments describe the instance
    that [ModelBase.__call__] builds, a new object. *)
Definition ContextAwareModelBase__call__ (name : string) (key : pyval)
    (hook : policy) (fields : gmap string pyval) : M (option Entity) :=
  λ w, let newborn := mkEntity (next_oid w) name key hook fields in
       match current false (set_next_oid S w) with
       | (Ok _, w1) => regd (Some newborn) w1
       | (Raise KeyError, w1) => (Ok (Some newborn), w1)
       | (Raise e, w1) => (Raise e, w1)
       end.

(** ** Parent rows *)

(** The inner loop of [registerParentEntities]. *)
Definition register_rows (rows : list Entity) : M unit :=
  for_each rows (λ parentDupe, regd (Some parentDupe) ;; ret tt).

Section Parents.

(** The primary keys of the rows stored for a type, and what
    [canBeRegd] is on the instances of a type. *)
Variable table : string → list pyval.

Variable type_policy : string → policy.

(** Modelled from the spec: [fetchEntities], which [ContextManager] calls
    and does not define.  It fetches the rows of the type whose primary key
    is in the given set, each as a new instance. *)
Definition fetchEntities (parentClass : Model) (pk__in : list pyval) : M (list Entity) :=
  λ w, let found := filter (λ p, p ∈ pk__in) (table (mname parentClass)) in
       (Ok (imap (λ i p, mkEntity (next_oid w + i) (mname parentClass) p
                           (type_policy (mname parentClass)) ∅) found),
        set_next_oid (λ n, n + length found) w).

(** [ContextManager.registerParentEntities]; [objects] is the manager of the
    class that [modelClass( entityType )] resolves to. *)
Definition registerParentEntities (objects : ContextAwareManager)
    (entities : list Entity) : M unit :=
  let pks := pk <$> entities in
  for_each (parentEntityClasses objects) (λ parentClass,
    rows <- fetchEntities parentClass pks ;;
    for_each rows (λ parentDupe, regd (Some parentDupe) ;; ret tt)).

(** Whether a row of a type, fetched as a new instance, passes the test of
    [regd]. *)
Definition row_registerable (name : string) (p : pyval) : bool :=
  isRegisterable (Some (mkEntity 0 name p (type_policy name) ∅)).

(** The selected rows of the ancestor types that pass the test of [regd]. *)
Definition selected (classes : list Model) (pks : list pyval)
    (k : string * pyval) : Prop :=
  ∃ c, c ∈ classes ∧ k.1 = mname c ∧ k.2 ∈ table (mname c) ∧ k.2 ∈ pks ∧
       row_registerable (mname c) k.2 = true.

(** The body of the outer loop of [registerParentEntities]. *)
Definition register_parents_of (pks : list pyval) (parentClass : Model) : M unit :=
  rows <- fetchEntities parentClass pks ;;
  register_rows rows.

End Parents.

(** ** Fetch paths *)

(** The ways in which an instance reaches the caller through the registry:
    a call of [regd], a [RegisteringQuerySet] iterated to its end (its
    [__init__] looks the context up), and the construction of an instance. *)
Inductive fetch : Type :=
| ByRegistration (entity : option Entity)
| ByQuery (rows : list Entity)
| ByConstruction (name : string) (key : pyval) (hook : policy)
                 (fields : gmap string pyval).

Definition run_fetch (f : fetch) : M (list (option Entity)) :=
  match f with
  | ByRegistration entity => r <- regd entity ;; ret [r]
  | ByQuery rows =>
      context <- current true ;;
      RegisteringQuerySet_iterator context (ret rows)
  | ByConstruction name key hook fields =>
      r <- ContextAwareModelBase__call__ name key hook fields ;; ret [r]
  end.

(** ** Vocabulary for the registry properties *)

(** [m] keeps [P]: whatever the outcome, a state in [P] is left in [P]. *)
Definition keeps {A} (P : world → Prop) (m : M A) : Prop :=
  ∀ w, P w → P (m w).2.

(** Every entry of the registry sits under the key of the instance it holds. *)
Definition registry_wf (w : world) : Prop :=
  ∀ k e, pkRegistry w !! k = Some e → regkey e = k.

(** The ancestors of a class that has at most one concrete parent at every
    level, from its parent up to the root, and the classes of that kind. *)
Fixpoint chain (m : Model) : list Model :=
  match m with
  | mkModel _ _ _ [(parent, _)] => parent :: chain parent
  | _ => []
  end.

Fixpoint linear (m : Model) : Prop :=
  match m with
  | mkModel _ _ _ [] => True
  | mkModel _ _ _ [(parent, _)] => linear parent
  | _ => False
  end.

(** ** Concrete states, entities and persistence layers *)

Definition order_A : Entity := mkEntity 1 "Order" (PyInt 42) ModelHook ∅.


Definition order_C : Entity := mkEntity 3 "Order" (PyInt 42) ModelHook ∅.

Definition empty_context : world := World ∅ [] [] true [] 4.

Definition context_with_A : world := (regd (Some order_A) empty_context).2.

(** A persistence layer in which no call raises; savepoints are numbered by
    the calls made before them, and a transaction is managed while a
    transaction-management level is open. *)
Definition quiet_db : Persistence :=
  mkPersistence (λ log, "s" +:+ pretty (length log))
                (λ _ _, None)
                (λ log, bool_decide (0 < open_transactions log)%Z).

(** A persistence layer whose [savepoint_rollback] raises. *)
Definition rollback_failing_db : Persistence :=
  mkPersistence (λ log, "s" +:+ pretty (length log))
                (λ _ c, match c with
                        | CSavepointRollback _ => Some (DatabaseError 1)
                        | _ => None
                        end)
                (λ log, bool_decide (0 < open_transactions log)%Z).

Definition fresh_context : world := World ∅ [] [] true [] 0.

Definition nested_context : world := World ∅ ["s1"; "s2"] [] true [] 0.

Definition three_deep : world := World ∅ ["s1"; "s2"; "s3"] [7; 8] true [] 0.

Definition id_field : Field := mkField "id" None.

Definition base_ptr : Field := mkField "base_ptr" (Some (mkRel false true)).

Definition mid_ptr : Field := mkField "mid_ptr" (Some (mkRel false true)).

Definition owner_field : Field := mkField "owner" (Some (mkRel false false)).

Definition base_model : Model := mkModel "Base" (Some id_field) [id_field] [].

Definition mid_model : Model :=
  mkModel "Mid" (Some base_ptr) [base_ptr; owner_field] [(base_model, base_ptr)].

Definition leaf_model : Model :=
  mkModel "Leaf" (Some mid_ptr) [mid_ptr; owner_field] [(mid_model, mid_ptr)].

Definition leaf_objects : ContextAwareManager :=
  match contribute_to_class leaf_model with
  | Fine objects => objects
  | AttributeError => mkManager leaf_model ∅ [] ∅
  end.

Definition demo_table (name : string) : list pyval :=
  if decide (name = "Leaf") then [] else [PyInt 1; PyInt 2; PyInt 3].

Definition demo_policy (name : string) : policy := ModelHook.

Definition leaf_1 : Entity := mkEntity 10 "Leaf" (PyInt 1) ModelHook ∅.

Definition leaf_2 : Entity := mkEntity 11 "Leaf" (PyInt 2) ModelHook ∅.

Definition leaf_3 : Entity := mkEntity 12 "Leaf" (PyInt 3) ModelHook ∅.

Definition demo_context : world := World ∅ [] [] true [] 100.

Definition query_finds_nothing : list qobject → list (string * pyval) → M Entity :=
  λ _ _, raise DoesNotExist.

(** One positional [Q] object. *)
Definition positional_Q : list qobject := [7].

Definition leaf_owned : Entity :=
  mkEntity 20 "Leaf" (PyUUID 1) ModelHook {[ "owner_id" := PyInt 9 ]}.

Definition context_with_leaf : world := (regd (Some leaf_owned) demo_context).2.

(** ** Further functions of the two files *)

(** [ContextManager.parentClassnamesForEntity]: the [while queue:] loop over
    the parent classes, appending their names to [stack]. *)
Equations? classnames_loop (queue : list Model) (stack : list string)
    : list string by wf (list_sum (model_size <$> queue)) lt :=
  classnames_loop [] stack := stack;
  classnames_loop (parentClass :: queue) stack :=
    classnames_loop (queue ++ (meta_parents parentClass).*1)
                    (stack ++ [mname parentClass]).
Proof.
  rewrite fmap_app, list_sum_app. destruct parentClass as [n p fs ps]. simpl.
  assert (list_sum (model_size <$> ps.*1)
          = list_sum (map (λ p, match p with (parent, _) => model_size parent end) ps))
    as H.
  { clear. induction ps as [|[parent link] ps IH]; simpl; [done|].
    f_equal. exact IH. }
  rewrite H. unfold fmap. lia.
Qed.

(** [ContextManager.parentClassnamesForEntity]; [s_concreteParents] is the
    thread-local cache, keyed by class name, and [entity_class] the class of
    the entity.  The result is the cache and the list returned. *)
Definition parentClassnamesForEntity (s_concreteParents : gmap string (list string))
    (entity_class : Model) : gmap string (list string) * list string :=
  let finalName := mname entity_class in
  match s_concreteParents !! finalName with
  | Some stack => (s_concreteParents, stack)
  | None =>
      let stack := classnames_loop (meta_parents entity_class).*1 [finalName] in
      (<[ finalName := stack ]> s_concreteParents, stack)
  end.

(** [ContextAwareModel.save]; [super_save] is [Model.save], which writes the
    row and sets the primary key on the instance, the same object: it yields
    the instance as it is afterwards together with the value it returns, and
    so does [save]. *)
Definition ContextAwareModel_save (self : Entity)
    (super_save : Entity → M (Entity * pyval)) : M (Entity * pyval) :=
  saved <- super_save self ;;
  context <- current true ;;
  (if context then regd (Some saved.1) ;; ret tt else ret tt) ;;
  ret saved.

Section RegisterParents.

Variable table : string → list pyval.

Variable type_policy : string → policy.

(** [RegisteringQuerySet.registerParents]; [self_context] is the context
    found by [__init__], [objects] the manager of [self.model] and
    [super_iterator] the rows of the query.  The result tells whether a
    clone was returned ([true]) or the query set itself.  The entities
    handed on are the ones the iterator yields, none of which is [None]. *)
Definition RegisteringQuerySet_registerParents (self_context : bool)
    (objects : ContextAwareManager) (super_iterator : M (list Entity)) : M bool :=
  if self_context then
    results <- RegisteringQuerySet_iterator self_context super_iterator ;;
    registerParentEntities table type_policy objects (omap id results) ;;
    ret true
  else ret false.

End RegisterParents.

(** ** Vocabulary for the further properties *)

(** Every entry of the registry sits under the key of the instance it holds,
    and that instance passes the test of [regd]. *)
Definition registry_ok (w : world) : Prop :=
  ∀ k e, pkRegistry w !! k = Some e →
         regkey e = k ∧ isRegisterable (Some e) = true.

(** The ancestors of a class, each with the field that links its child to
    it: the parents, and after each parent its own ancestors. *)
Fixpoint ancestor_links (m : Model) : list (Model * Field) :=
  match m with
  | mkModel _ _ _ ps =>
      (fix go (l : list (Model * Field)) : list (Model * Field) :=
         match l with
         | [] => []
         | (parent, link) :: l' => (parent, link) :: ancestor_links parent ++ go l'
         end) ps
  end.

Definition queue_links (queue : list (Model * Field)) : list (Model * Field) :=
  flat_map (λ pf, pf :: ancestor_links pf.1) queue.

(** The name [contribute_to_class] adds to [pkAttNames] for a link. *)
Definition link_name (pf : Model * Field) : string := fname pf.2 +:+ "__pk".

Section Nesting.

Variable db : Persistence.

(** [depth] scoped savepoint blocks inside one another, around [body]. *)
Fixpoint nested_scopes {A} (depth : nat) (body : M A) : M A :=
  match depth with
  | 0 => body
  | S d => with_savepoint db (nested_scopes d body)
  end.

End Nesting.

(** A second instance for the key of [order_A], and an unsaved one. *)
Definition order_D : Entity := mkEntity 5 "Order" (PyInt 42) ModelHook ∅.

Definition order_unsaved : Entity := mkEntity 6 "Order" PyNone ModelHook ∅.

(** Instances that carry the [entityType] attribute: one registerable, one
    whose [canBeRegd] answers [False]. *)
Definition order_E : Entity :=
  mkEntity 7 "Order" (PyInt 42) ModelHook {[ "entityType" := PyStr "Order" ]}.

Definition order_F : Entity :=
  mkEntity 8 "Order" (PyInt 42) (OverrideHook false) {[ "entityType" := PyStr "Order" ]}.




(** An account with a name, as a subclass or a caller might set on a
    context. *)
Definition account_A : Entity :=
  mkEntity 30 "Account" (PyInt 1) ModelHook {[ "name" := PyStr "acme" ]}.

(** Ancestor rows whose [canBeRegd] answers [False]. *)
Definition refusing_policy (name : string) : policy := OverrideHook false.

(** A persistence layer whose [savepoint] raises. *)
Definition savepoint_failing_db : Persistence :=
  mkPersistence (λ log, "s" +:+ pretty (length log))
                (λ _ c, match c with
                        | CSavepoint => Some (DatabaseError 2)
                        | _ => None
                        end)
                (λ log, bool_decide (0 < open_transactions log)%Z).

(** What the iterator yields for a row under a registry: an instance of the
    key of the row, the one bound to that key if the row passes the
    registration test and the row itself otherwise. *)
Definition canonical_for (registry : gmap (string * pyval) Entity)
    (row yielded : Entity) : Prop :=
  regkey yielded = regkey row ∧
  (isRegisterable (Some row) = true → registry !! regkey row = Some yielded) ∧
  (isRegisterable (Some row) = false → yielded = row).

(** A [Model.save] that inserts the row: it sets the primary key to [42]
    and records the write. *)
Definition insert_row (self : Entity) : M (Entity * pyval) :=
  λ w, (Ok (mkEntity (oid self) (cls self) (PyInt 42) (canBeRegd_attr self) (attrs self),
            PyNone),
        set_tx_log (λ log, log ++ [CWrite 1]) w).

(** * Properties *)

(** ** State invariants of computations *)

Lemma keeps_ret {A} (P : world → Prop) (a : A) : keeps P (ret a).
Proof. by intros w. Qed.

Lemma keeps_raise {A} (P : world → Prop) (e : exn) : keeps P (@raise A e).
Proof. by intros w. Qed.

Lemma keeps_bind {A B} (P : world → Prop) (m : M A) (k : A → M B) :
  keeps P m → (∀ a, keeps P (k a)) → keeps P (bind m k).
Proof.
  intros Hm Hk w Hw. unfold bind. specialize (Hm w Hw).
  destruct (m w) as [[a|e] w1]; simpl in *; [by apply Hk | done].
Qed.

Lemma keeps_for_each {A} (P : world → Prop) (xs : list A) (body : A → M unit) :
  (∀ x, x ∈ xs → keeps P (body x)) → keeps P (for_each xs body).
Proof.
  induction xs as [|x xs IH]; intros Hbody; simpl.
  - apply keeps_ret.
  - apply keeps_bind.
    + apply Hbody. by left.
    + intros _. apply IH. intros y Hy. apply Hbody. by right.
Qed.

Lemma keeps_yield_each {A B} (P : world → Prop) (xs : list A) (f : A → M B) :
  (∀ x, x ∈ xs → keeps P (f x)) → keeps P (yield_each xs f).
Proof.
  induction xs as [|x xs IH]; intros Hf; simpl.
  - apply keeps_ret.
  - apply keeps_bind.
    + apply Hf. by left.
    + intros y. apply keeps_bind.
      * apply IH. intros z Hz. apply Hf. by right.
      * intros ys. apply keeps_ret.
Qed.

(** ** [regd] *)

Lemma regd_not_registerable (entity : option Entity) (w : world) :
  isRegisterable entity = false → regd entity w = (Ok entity, w).
Proof. intros H. unfold regd. by rewrite H. Qed.

Lemma regd_cached (e cached : Entity) (w : world) :
  isRegisterable (Some e) = true →
  pkRegistry w !! regkey e = Some cached →
  regd (Some e) w = (Ok (Some cached), w).
Proof. intros He Hc. unfold regd. by rewrite He, Hc. Qed.

Lemma regd_stored (e : Entity) (w : world) :
  isRegisterable (Some e) = true →
  pkRegistry w !! regkey e = None →
  regd (Some e) w = (Ok (Some e), set_pkRegistry (insert (regkey e) e) w).
Proof. intros He Hc. unfold regd. by rewrite He, Hc. Qed.

(** [regd] on a hook-less entity tests the truth value of the primary key,
    so a primary key that is [0] or the empty string is never stored. *)
Lemma regd_no_hook_falsy_pk (e : Entity) (w : world) :
  canBeRegd_attr e = NoHook → truthy (pk e) = false →
  regd (Some e) w = (Ok (Some e), w).
Proof.
  intros Hh Ht. apply regd_not_registerable. simpl. by rewrite Hh.
Qed.

(** The registry only grows under [regd], and what it holds stays. *)
Lemma regd_registry_grows (entity : option Entity) (w : world) :
  pkRegistry w ⊆ pkRegistry (regd entity w).2.
Proof.
  unfold regd. destruct (isRegisterable entity); [|done].
  destruct entity as [e|]; [|done].
  destruct (pkRegistry w !! regkey e) eqn:Hk; [done|].
  simpl. by apply insert_subseteq.
Qed.

Lemma regd_touches_registry_only (entity : option Entity) (w : world) :
  let w' := (regd entity w).2 in
  savepoints w' = savepoints w ∧ queuedSaves w' = queuedSaves w ∧
  s_instances w' = s_instances w ∧ tx_log w' = tx_log w ∧
  next_oid w' = next_oid w.
Proof.
  unfold regd. destruct (isRegisterable entity); [|done].
  destruct entity as [e|]; [|done].
  by destruct (pkRegistry w !! regkey e).
Qed.



Lemma regd_never_raises (entity : option Entity) (w : world) :
  ∃ r, (regd entity w).1 = Ok r.
Proof.
  unfold regd. destruct (isRegisterable entity); [|by eexists].
  destruct entity as [e|]; [|by eexists].
  destruct (pkRegistry w !! regkey e); by eexists.
Qed.

Lemma current_state (noneOnLookupFailure : bool) (w : world) :
  (current noneOnLookupFailure w).2 = w.
Proof. unfold current. by destruct (s_instances w), noneOnLookupFailure. Qed.

Lemma current_found (noneOnLookupFailure : bool) (w : world) :
  s_instances w = true → current noneOnLookupFailure w = (Ok true, w).
Proof. intros H. unfold current. by rewrite H. Qed.



Lemma isRegisterable_data (e1 e2 : Entity) :
  canBeRegd_attr e1 = canBeRegd_attr e2 → pk e1 = pk e2 →
  isRegisterable (Some e1) = isRegisterable (Some e2).
Proof. intros Hh Hp. unfold isRegisterable, canBeRegd. by rewrite Hh, Hp. Qed.

(** ** The identity map *)




(** C2, at the failing input: an entity without a [canBeRegd] hook whose
    primary key is [0], which is not null, is handed back by [regd] and the
    identity map stays empty. *)
Theorem regd_skips_zero_pk_without_hook :
  let e := mkEntity 7 "Plain" (PyInt 0) NoHook ∅ in
  is_not_None (pk e) = true ∧
  regd (Some e) empty_context = (Ok (Some e), empty_context) ∧
  pkRegistry (regd (Some e) empty_context).2 !! regkey e = None.
Proof. repeat split; reflexivity. Qed.

(** ** [regdLookup] *)

Lemma regdLookup_fetched (entityType : string) (key : pyval)
    (fetch : M (option Entity)) (fetched : Entity) (w w1 : world) :
  pkRegistry w !! (entityType, key) = None →
  fetch w = (Ok (Some fetched), w1) →
  is_Some (attrs fetched !! "entityType") →
  regdLookup entityType key (Some fetch) w = regd (Some fetched) w1.
Proof.
  intros Hmiss Hfetch [v Hv]. unfold regdLookup, bind, read_attr.
  by rewrite Hmiss, Hfetch, Hv.
Qed.

Lemma regdLookup_fetched_without_entityType (entityType : string) (key : pyval)
    (fetch : M (option Entity)) (fetched : Entity) (w w1 : world) :
  pkRegistry w !! (entityType, key) = None →
  fetch w = (Ok (Some fetched), w1) →
  attrs fetched !! "entityType" = None →
  regdLookup entityType key (Some fetch) w = (Raise (NoAttribute "entityType"), w1).
Proof.
  intros Hmiss Hfetch Hv. unfold regdLookup, bind, read_attr.
  by rewrite Hmiss, Hfetch, Hv.
Qed.

(** C6 (amended): [regdLookup] returns the cached entry on a hit and leaves
    the state alone; on a miss without a fetch function it returns [None]; on
    a miss with one it calls it, returns [None] for a [None] result without
    touching the registry the call left, and passes a result that carries
    the [entityType] attribute its log call reads through [regd], returning
    what [regd] returns: for a result that passes the registration test the
    instance bound to the result's key, and for one that fails it the result
    itself, which is then not registered.  An exception of the fetch
    function passes through. *)
Theorem regdLookup_contract (entityType : string) (key : pyval) (w : world) :
  (∀ fetchFunc cached,
     pkRegistry w !! (entityType, key) = Some cached →
     regdLookup entityType key fetchFunc w = (Ok (Some cached), w)) ∧
  (pkRegistry w !! (entityType, key) = None →
     regdLookup entityType key None w = (Ok None, w)) ∧
  (∀ fetch w1,
     pkRegistry w !! (entityType, key) = None →
     fetch w = (Ok None, w1) →
     regdLookup entityType key (Some fetch) w = (Ok None, w1)) ∧
  (∀ fetch fetched w1,
     pkRegistry w !! (entityType, key) = None →
     fetch w = (Ok (Some fetched), w1) →
     is_Some (attrs fetched !! "entityType") →
     regdLookup entityType key (Some fetch) w = regd (Some fetched) w1 ∧
     (isRegisterable (Some fetched) = true →
      ∃ registered,
        regdLookup entityType key (Some fetch) w
          = (Ok (Some registered), (regd (Some fetched) w1).2) ∧
        pkRegistry (regd (Some fetched) w1).2 !! regkey fetched
          = Some registered) ∧
     (isRegisterable (Some fetched) = false →
      regdLookup entityType key (Some fetch) w = (Ok (Some fetched), w1))) ∧
  (∀ fetch e w1,
     pkRegistry w !! (entityType, key) = None →
     fetch w = (Raise e, w1) →
     regdLookup entityType key (Some fetch) w = (Raise e, w1)).
Proof.
  split; [|split; [|split; [|split]]].
  - intros fetchFunc cached H. unfold regdLookup. by rewrite H.
  - intros H. unfold regdLookup. by rewrite H.
  - intros fetch w1 H Hf. unfold regdLookup, bind. by rewrite H, Hf.
  - intros fetch fetched w1 H Hf Ha.
    assert (Hl : regdLookup entityType key (Some fetch) w = regd (Some fetched) w1).
    { by apply regdLookup_fetched. }
    rewrite Hl. split; [done|]. split.
    + intros Hr. destruct (pkRegistry w1 !! regkey fetched) as [c|] eqn:Hc.
      * exists c. by rewrite (regd_cached fetched c w1 Hr Hc).
      * exists fetched. rewrite (regd_stored fetched w1 Hr Hc). simpl.
        split; [done|]. apply lookup_insert_eq.
    + intros Hr. by apply regd_not_registerable.
  - intros fetch e w1 H Hf. unfold regdLookup, bind. by rewrite H, Hf.
Qed.

(** C6, as stated, fails: on a miss, a fetched instance whose [canBeRegd]
    answers [False] is returned and not registered; the state after the
    lookup is the one before it, in which the key is not bound. *)
Lemma regdLookup_returns_ineligible_fetch_unregistered :
  regdLookup "Order" (PyInt 42) (Some (ret (Some order_F))) empty_context
    = (Ok (Some order_F), empty_context) ∧
  pkRegistry empty_context !! ("Order", PyInt 42) = None ∧
  regkey order_F = ("Order", PyInt 42).
Proof. repeat split; reflexivity. Qed.

Lemma regdLookup_contract_witness :
  regdLookup "Order" (PyInt 42) None context_with_A
    = (Ok (Some order_A), context_with_A) ∧
  regdLookup "Order" (PyInt 43) None context_with_A = (Ok None, context_with_A) ∧
  regdLookup "Order" (PyInt 42) (Some (ret (Some order_E))) empty_context
    = regd (Some order_E) empty_context ∧
  regdLookup "Order" (PyInt 42) (Some (ret (Some order_F))) empty_context
    = (Ok (Some order_F), empty_context).
Proof.
  destruct (regdLookup_contract "Order" (PyInt 42) context_with_A) as (H1 & _).
  destruct (regdLookup_contract "Order" (PyInt 43) context_with_A) as (_ & H2 & _).
  destruct (regdLookup_contract "Order" (PyInt 42) empty_context)
    as (_ & _ & _ & H3 & _).
  destruct (H3 (ret (Some order_E)) order_E empty_context eq_refl eq_refl
              (ex_intro _ (PyStr "Order") eq_refl)) as (H4 & _).
  destruct (H3 (ret (Some order_F)) order_F empty_context eq_refl eq_refl
              (ex_intro _ (PyStr "Order") eq_refl)) as (_ & _ & H5).
  exact (conj (H1 None order_A eq_refl) (conj (H2 eq_refl) (conj H4 (H5 eq_refl)))).
Defined.

(** ** Eviction *)

(** C7: [ejectFromRegistry] deletes the entry under the key of its argument,
    whichever object is cached there, and nothing else; without such an entry
    it changes nothing; afterwards a lookup of that key without a fetch
    function returns [None]; the pre-delete handler does exactly this when a
    context exists and nothing otherwise. *)
Theorem ejectFromRegistry_removes_its_key_only (obj : Entity) (w : world) :
  let w' := (ejectFromRegistry obj w).2 in
  (ejectFromRegistry obj w).1 = Ok tt ∧
  pkRegistry w' = delete (regkey obj) (pkRegistry w) ∧
  pkRegistry w' !! regkey obj = None ∧
  (∀ k, k ≠ regkey obj → pkRegistry w' !! k = pkRegistry w !! k) ∧
  (pkRegistry w !! regkey obj = None → w' = w) ∧
  regdLookup (cls obj) (pk obj) None w' = (Ok None, w') ∧
  (savepoints w' = savepoints w ∧ queuedSaves w' = queuedSaves w ∧
   s_instances w' = s_instances w ∧ tx_log w' = tx_log w ∧
   next_oid w' = next_oid w) ∧
  onPreDeleteSignal obj w
    = if s_instances w then ejectFromRegistry obj w else (Ok tt, w).
Proof.
  intros w'.
  assert (Hreg : pkRegistry w' = delete (regkey obj) (pkRegistry w)).
  { unfold w', ejectFromRegistry.
    destruct (pkRegistry w !! regkey obj) eqn:Hk; simpl; [done|].
    symmetry. by apply delete_id. }
  assert (Hgone : pkRegistry w' !! regkey obj = None).
  { rewrite Hreg. apply lookup_delete_eq. }
  split; [|split; [done|split; [done|split; [|split; [|split; [|split]]]]]].
  - unfold ejectFromRegistry. by destruct (pkRegistry w !! regkey obj).
  - intros k Hk. rewrite Hreg. by apply lookup_delete_ne.
  - intros Hk. unfold w', ejectFromRegistry. by rewrite Hk.
  - unfold regdLookup. fold (regkey obj). by rewrite Hgone.
  - unfold w', ejectFromRegistry. by destruct (pkRegistry w !! regkey obj).
  - unfold onPreDeleteSignal, bind, current. by destruct (s_instances w).
Qed.

Lemma ejectFromRegistry_removes_its_key_only_witness :
  pkRegistry (ejectFromRegistry order_C context_with_A).2 !! regkey order_A = None ∧
  pkRegistry (ejectFromRegistry order_C context_with_leaf).2 !! regkey leaf_owned
    = Some leaf_owned ∧
  regdLookup "Order" (PyInt 42) None (ejectFromRegistry order_C context_with_A).2
    = (Ok None, (ejectFromRegistry order_C context_with_A).2).
Proof.
  pose proof (ejectFromRegistry_removes_its_key_only order_C context_with_A) as H.
  pose proof (ejectFromRegistry_removes_its_key_only order_C context_with_leaf) as H'.
  cbv zeta in H, H'.
  destruct H as (_ & _ & H1 & _ & _ & H2 & _).
  destruct H' as (_ & _ & _ & H3 & _).
  split; [exact H1|]. split; [|exact H2].
  rewrite (H3 (regkey leaf_owned)); [reflexivity|discriminate].
Defined.

(** ** The savepoint stack *)

Lemma writes_of_app (l1 l2 : list call) :
  writes_of (l1 ++ l2) = writes_of l1 ++ writes_of l2.
Proof. apply omap_app. Qed.

Lemma writes_of_CWrite (q : list write) : writes_of (CWrite <$> q) = q.
Proof.
  unfold writes_of. induction q as [|x q IH]; [done|].
  rewrite fmap_cons. cbn. f_equal. exact IH.
Qed.

Lemma open_transactions_app (l1 l2 : list call) :
  open_transactions (l1 ++ l2) = (open_transactions l1 + open_transactions l2)%Z.
Proof.
  unfold open_transactions. induction l1 as [|c l1 IH]; simpl; [done|].
  rewrite IH. lia.
Qed.

Lemma open_transactions_CWrite (q : list write) :
  open_transactions (CWrite <$> q) = 0%Z.
Proof. induction q as [|x q IH]; simpl; [done|]. exact IH. Qed.

Lemma is_top_true (h : handle) (stack : list handle) :
  is_top h stack = true ↔ last stack = Some h.
Proof.
  unfold is_top. destruct (last stack) as [top|]; [|done].
  rewrite bool_decide_eq_true. split; congruence.
Qed.

Lemma is_top_false (h : handle) (stack : list handle) :
  is_top h stack = false ↔ last stack ≠ Some h.
Proof.
  rewrite <- is_top_true. by destruct (is_top h stack).
Qed.

Lemma removelast_snoc (stack : list handle) (h : handle) :
  removelast (stack ++ [h]) = stack.
Proof. apply removelast_last. Qed.

Section SavepointProperties.

Variable db : Persistence.

Lemma pushSavepoint_eq (w : world) :
  pushSavepoint db w =
    let w1 := fired w in
    let sp := sp_fresh db (tx_log w1) in
    let w2 := set_tx_log (λ l, l ++ [CSavepoint]) w1 in
    match tx_raises db (tx_log w1) CSavepoint with
    | Some e => (Raise e, w2)
    | None => (Ok sp, set_savepoints (λ l, l ++ [sp]) w2)
    end.
Proof.
  destruct w as [reg sps q si log n].
  cbv [pushSavepoint bind hasQueuedSaves when fireQueuedSaves
       transaction_savepoint tx_call fired ret]. simpl.
  destruct q as [|x q]; simpl; rewrite ?app_nil_r;
    by destruct (tx_raises db _ CSavepoint).
Qed.

Lemma commitSavepoint_eq (h : handle) (w : world) :
  commitSavepoint db h w =
    let w1 := fired w in
    if is_top h (savepoints w) then
      let w2 := set_tx_log (λ l, l ++ [CSavepointCommit h]) w1 in
      match tx_raises db (tx_log w1) (CSavepointCommit h) with
      | Some e => (Raise e, w2)
      | None => (Ok tt, set_savepoints (@removelast handle) w2)
      end
    else (Raise (ValueError not_top_msg), w1).
Proof.
  destruct w as [reg sps q si log n].
  cbv [commitSavepoint bind hasQueuedSaves when fireQueuedSaves
       tx_call fired ret]. simpl.
  destruct q as [|x q]; simpl; rewrite ?app_nil_r;
    destruct (is_top h sps); try done;
    by destruct (tx_raises db _ (CSavepointCommit h)).
Qed.

Lemma rollbackSavepoint_eq (h : handle) (w : world) :
  rollbackSavepoint db h w =
    let w1 := aborted w in
    if is_top h (savepoints w) then
      let w2 := set_tx_log (λ l, l ++ [CSavepointRollback h]) w1 in
      match tx_raises db (tx_log w1) (CSavepointRollback h) with
      | Some e => (Raise e, w2)
      | None => (Ok tt, set_savepoints (@removelast handle) w2)
      end
    else (Raise (ValueError not_top_msg), w1).
Proof.
  destruct w as [reg sps q si log n].
  cbv [rollbackSavepoint bind hasQueuedSaves when abortAllQueuedSaves
       tx_call aborted ret]. simpl.
  destruct q as [|x q]; simpl;
    destruct (is_top h sps); try done;
    by destruct (tx_raises db _ (CSavepointRollback h)).
Qed.

(** C3: [pushSavepoint] puts the handle it returns on top of the stack.
    [commitSavepoint] and [rollbackSavepoint] raise the [ValueError] of
    the stack discipline whenever the handle is not the last element of
    [savepoints]; when it is, they call [savepoint_commit] (respectively
    [savepoint_rollback]) of the persistence layer with it, right after the
    pending writes have been executed (respectively dropped), and once that
    call returns they pop the stack.  With S1, S2, S3 on the stack in that
    order and S3 different from the other two, committing S2 and rolling
    back S1 raise, and committing S3 leaves S2 on top. *)
Theorem savepoint_stack_discipline (h : handle) (w : world) :
  (∀ sp w', pushSavepoint db w = (Ok sp, w') →
            savepoints w' = savepoints w ++ [sp] ∧ last (savepoints w') = Some sp) ∧
  (last (savepoints w) ≠ Some h →
     (commitSavepoint db h w).1 = Raise (ValueError not_top_msg) ∧
     (rollbackSavepoint db h w).1 = Raise (ValueError not_top_msg)) ∧
  (last (savepoints w) = Some h →
     tx_log (commitSavepoint db h w).2
       = tx_log w ++ (CWrite <$> queuedSaves w) ++ [CSavepointCommit h] ∧
     tx_log (rollbackSavepoint db h w).2 = tx_log w ++ [CSavepointRollback h] ∧
     (tx_raises db (tx_log w ++ (CWrite <$> queuedSaves w)) (CSavepointCommit h) = None →
        (commitSavepoint db h w).1 = Ok tt ∧
        savepoints (commitSavepoint db h w).2 = removelast (savepoints w)) ∧
     (tx_raises db (tx_log w) (CSavepointRollback h) = None →
        (rollbackSavepoint db h w).1 = Ok tt ∧
        savepoints (rollbackSavepoint db h w).2 = removelast (savepoints w))) ∧
  (∀ below s1 s2 s3,
     savepoints w = below ++ [s1; s2; s3] → s2 ≠ s3 → s1 ≠ s3 →
     (commitSavepoint db s2 w).1 = Raise (ValueError not_top_msg) ∧
     (rollbackSavepoint db s1 w).1 = Raise (ValueError not_top_msg) ∧
     (tx_raises db (tx_log w ++ (CWrite <$> queuedSaves w)) (CSavepointCommit s3) = None →
        (commitSavepoint db s3 w).1 = Ok tt ∧
        savepoints (commitSavepoint db s3 w).2 = below ++ [s1; s2] ∧
        last (savepoints (commitSavepoint db s3 w).2) = Some s2)).
Proof.
  assert (Hfail : ∀ x, last (savepoints w) ≠ Some x →
     (commitSavepoint db x w).1 = Raise (ValueError not_top_msg) ∧
     (rollbackSavepoint db x w).1 = Raise (ValueError not_top_msg)).
  { intros x Hx. apply is_top_false in Hx.
    rewrite commitSavepoint_eq, rollbackSavepoint_eq. simpl. by rewrite Hx. }
  assert (Hok : ∀ x, last (savepoints w) = Some x →
     tx_raises db (tx_log w ++ (CWrite <$> queuedSaves w)) (CSavepointCommit x) = None →
     (commitSavepoint db x w).1 = Ok tt ∧
     savepoints (commitSavepoint db x w).2 = removelast (savepoints w)).
  { intros x Hx Hq. apply is_top_true in Hx.
    rewrite commitSavepoint_eq. simpl. by rewrite Hx, Hq. }
  split.
  { intros sp w' Hpush. rewrite pushSavepoint_eq in Hpush. simpl in Hpush.
    destruct (tx_raises db _ CSavepoint); [done|].
    injection Hpush as <- <-. simpl. split; [done|]. apply last_snoc. }
  split; [exact (Hfail h)|]. split.
  - intros Htop. split; [|split; [|split]].
    + apply is_top_true in Htop. rewrite commitSavepoint_eq. simpl. rewrite Htop.
      destruct (tx_raises db _ _); simpl; by rewrite <- app_assoc.
    + apply is_top_true in Htop. rewrite rollbackSavepoint_eq. simpl. rewrite Htop.
      by destruct (tx_raises db _ _).
    + by apply Hok.
    + intros Hq. apply is_top_true in Htop.
      rewrite rollbackSavepoint_eq. simpl. by rewrite Htop, Hq.
  - intros below s1 s2 s3 Hstack H23 H13.
    assert (Hlast : last (savepoints w) = Some s3).
    { rewrite Hstack.
      replace (below ++ [s1; s2; s3]) with ((below ++ [s1; s2]) ++ [s3])
        by (by rewrite <- app_assoc).
      apply last_snoc. }
    split; [|split].
    + apply Hfail. rewrite Hlast. congruence.
    + apply Hfail. rewrite Hlast. congruence.
    + intros Hq. destruct (Hok s3 Hlast Hq) as [H1 H2].
      assert (Hpop : removelast (savepoints w) = below ++ [s1; s2]).
      { rewrite Hstack.
        replace (below ++ [s1; s2; s3]) with ((below ++ [s1; s2]) ++ [s3])
          by (by rewrite <- app_assoc).
        apply removelast_snoc. }
      split; [done|]. rewrite H2, Hpop. split; [done|].
      replace (below ++ [s1; s2]) with ((below ++ [s1]) ++ [s2])
        by (by rewrite <- app_assoc).
      apply last_snoc.
Qed.

(** C10: when the handle is not the last element of [savepoints], which is
    the case for every handle when the stack is empty, [commitSavepoint] and
    [rollbackSavepoint] raise and the stack is what it was; the only calls
    they have made are the pending writes that [commitSavepoint] executes
    first, so neither [savepoint_commit] nor [savepoint_rollback] has been
    called. *)
Theorem failed_discipline_check_leaves_stack (h : handle) (w : world) :
  last (savepoints w) ≠ Some h →
  let wc := (commitSavepoint db h w).2 in
  let wr := (rollbackSavepoint db h w).2 in
  (commitSavepoint db h w).1 = Raise (ValueError not_top_msg) ∧
  (rollbackSavepoint db h w).1 = Raise (ValueError not_top_msg) ∧
  savepoints wc = savepoints w ∧
  savepoints wr = savepoints w ∧
  tx_log wc = tx_log w ++ (CWrite <$> queuedSaves w) ∧
  tx_log wr = tx_log w ∧
  (∀ sid, CSavepointCommit sid ∈ tx_log wc → CSavepointCommit sid ∈ tx_log w) ∧
  (∀ sid, CSavepointRollback sid ∈ tx_log wr → CSavepointRollback sid ∈ tx_log w).
Proof.
  intros Hh wc wr. apply is_top_false in Hh. unfold wc, wr.
  rewrite commitSavepoint_eq, rollbackSavepoint_eq. simpl. rewrite Hh. simpl.
  repeat split; try done.
  intros sid Hin. apply elem_of_app in Hin as [Hin|Hin]; [done|].
  apply list_elem_of_fmap in Hin as (x & Hx & _). discriminate.
Qed.

Lemma empty_stack_has_no_top (h : handle) (w : world) :
  savepoints w = [] → last (savepoints w) ≠ Some h.
Proof. by intros ->. Qed.

(** ** Deferred writes *)

Lemma boundary_keeps_executed_writes (done_writes : list write) (b : boundary) :
  keeps (λ w, queuedSaves w = [] ∧ writes_of (tx_log w) = done_writes)
        (run_boundary db b).
Proof.
  intros w [Hq Hl].
  assert (Hw : writes_of (CWrite <$> queuedSaves w) = []) by by rewrite Hq.
  destruct b as [|h|h]; simpl.
  - unfold bind. rewrite pushSavepoint_eq. simpl.
    destruct (tx_raises db _ CSavepoint); simpl;
      rewrite !writes_of_app, Hw, Hl; simpl; by rewrite !app_nil_r.
  - rewrite commitSavepoint_eq. simpl.
    destruct (is_top h (savepoints w)); simpl.
    + destruct (tx_raises db _ _); simpl;
        rewrite !writes_of_app, Hw, Hl; simpl; by rewrite !app_nil_r.
    + by rewrite writes_of_app, Hw, Hl, app_nil_r.
  - rewrite rollbackSavepoint_eq. simpl.
    destruct (is_top h (savepoints w)); simpl; [|done].
    destruct (tx_raises db _ _); simpl;
      rewrite !writes_of_app, Hl; simpl; by rewrite !app_nil_r.
Qed.

(** C5: the writes pending at a [pushSavepoint] or a [commitSavepoint] are
    executed, in queue order, before the call that creates (respectively
    commits) the savepoint, and over any further boundary operations they
    are executed that once; the writes pending at a [rollbackSavepoint] are
    dropped and are executed neither by it nor by any later boundary
    operation. *)
Theorem deferred_writes_at_boundaries (w : world) (h : handle) (later : list boundary) :
  let q := queuedSaves w in
  let after (w' : world) := (for_each later (run_boundary db) w').2 in
  tx_log (pushSavepoint db w).2 = tx_log w ++ (CWrite <$> q) ++ [CSavepoint] ∧
  (last (savepoints w) = Some h →
     tx_log (commitSavepoint db h w).2
       = tx_log w ++ (CWrite <$> q) ++ [CSavepointCommit h]) ∧
  queuedSaves (pushSavepoint db w).2 = [] ∧
  queuedSaves (commitSavepoint db h w).2 = [] ∧
  writes_of (tx_log (after (pushSavepoint db w).2)) = writes_of (tx_log w) ++ q ∧
  writes_of (tx_log (after (commitSavepoint db h w).2)) = writes_of (tx_log w) ++ q ∧
  queuedSaves (rollbackSavepoint db h w).2 = [] ∧
  writes_of (tx_log (rollbackSavepoint db h w).2) = writes_of (tx_log w) ∧
  writes_of (tx_log (after (rollbackSavepoint db h w).2)) = writes_of (tx_log w).
Proof.
  intros q after.
  assert (Hlater : ∀ L w', queuedSaves w' = [] → writes_of (tx_log w') = L →
                            writes_of (tx_log (after w')) = L).
  { intros L w' H1 H2.
    apply (keeps_for_each (λ w, queuedSaves w = [] ∧ writes_of (tx_log w) = L)
             later (run_boundary db)); [|done].
    intros b _. apply boundary_keeps_executed_writes. }
  assert (Hpush : queuedSaves (pushSavepoint db w).2 = [] ∧
                  writes_of (tx_log (pushSavepoint db w).2) = writes_of (tx_log w) ++ q ∧
                  tx_log (pushSavepoint db w).2 = tx_log w ++ (CWrite <$> q) ++ [CSavepoint]).
  { rewrite pushSavepoint_eq. simpl.
    destruct (tx_raises db _ CSavepoint); simpl;
      rewrite !writes_of_app, writes_of_CWrite; simpl; rewrite app_nil_r;
      (split; [done|split; [done|by rewrite <- app_assoc]]). }
  assert (Hcommit : queuedSaves (commitSavepoint db h w).2 = [] ∧
                    writes_of (tx_log (commitSavepoint db h w).2) = writes_of (tx_log w) ++ q).
  { rewrite commitSavepoint_eq. simpl.
    destruct (is_top h (savepoints w)); simpl.
    - destruct (tx_raises db _ _); simpl;
        rewrite !writes_of_app, writes_of_CWrite; simpl; by rewrite app_nil_r.
    - by rewrite writes_of_app, writes_of_CWrite. }
  assert (Hroll : queuedSaves (rollbackSavepoint db h w).2 = [] ∧
                  writes_of (tx_log (rollbackSavepoint db h w).2) = writes_of (tx_log w)).
  { rewrite rollbackSavepoint_eq. simpl.
    destruct (is_top h (savepoints w)); simpl; [|done].
    destruct (tx_raises db _ _); simpl;
      rewrite !writes_of_app; simpl; by rewrite app_nil_r. }
  destruct Hpush as (Hp1 & Hp2 & Hp3), Hcommit as [Hc1 Hc2], Hroll as [Hr1 Hr2].
  split; [done|]. split.
  { intros Htop. apply is_top_true in Htop. rewrite commitSavepoint_eq. simpl.
    rewrite Htop. destruct (tx_raises db _ _); simpl; by rewrite <- app_assoc. }
  split; [done|]. split; [done|].
  split; [by apply Hlater|]. split; [by apply Hlater|].
  split; [done|]. split; [done|]. by apply Hlater.
Qed.

(** ** The scoped savepoint block *)

Lemma exit_log (sc : SavepointContext) (type : option exn) (w : world) :
  let step := exit_savepoint_step db sc type w in
  let out := SavepointContext__exit__ db sc type w in
  savepoints out.2 = savepoints step.2 ∧
  queuedSaves out.2 = queuedSaves step.2 ∧
  pkRegistry out.2 = pkRegistry step.2 ∧
  tx_log out.2 =
    tx_log step.2
    ++ match step.1 with
       | Ok _ => if managingTransaction sc then [exit_outer_call type] else []
       | Raise _ => []
       end
    ++ release_calls sc.
Proof.
  intros step out. unfold out, step, SavepointContext__exit__, release_calls.
  destruct sc as [sp managing].
  destruct type as [raised|]; simpl;
    cbv [try_finally bind when ret tx_call];
    [destruct (rollbackSavepoint db sp w) as [[[]|e] w1]
    |destruct (commitSavepoint db sp w) as [[[]|e] w1]];
    destruct managing; simpl;
    repeat match goal with
    | |- context [tx_raises db ?l ?c] => destruct (tx_raises db l c); simpl
    end;
    rewrite ?app_nil_r, <- ?app_assoc; done.
Qed.

Lemma exit_result (sc : SavepointContext) (type : option exn) (w : world) :
  never_raises db →
  (SavepointContext__exit__ db sc type w).1
    = (exit_savepoint_step db sc type w).1.
Proof.
  intros Hnr. unfold SavepointContext__exit__.
  destruct sc as [sp managing].
  destruct type as [raised|]; simpl;
    cbv [try_finally bind when ret tx_call];
    [destruct (rollbackSavepoint db sp w) as [[[]|e] w1]
    |destruct (commitSavepoint db sp w) as [[[]|e] w1]];
    destruct managing; simpl; rewrite ?Hnr; simpl; rewrite ?Hnr; done.
Qed.

Lemma exit_step_on_top (sc : SavepointContext) (type : option exn) (w : world) :
  never_raises db →
  last (savepoints w) = Some (sc_savepoint sc) →
  exit_savepoint_step db sc type w =
    (Ok tt,
     World (pkRegistry w) (removelast (savepoints w)) [] (s_instances w)
           (tx_log w ++
            match type with
            | None => (CWrite <$> queuedSaves w) ++ [CSavepointCommit (sc_savepoint sc)]
            | Some _ => [CSavepointRollback (sc_savepoint sc)]
            end)
           (next_oid w)).
Proof.
  intros Hnr Htop. apply is_top_true in Htop. unfold exit_savepoint_step.
  destruct type as [raised|].
  - rewrite rollbackSavepoint_eq. simpl. by rewrite Htop, Hnr.
  - rewrite commitSavepoint_eq. simpl. rewrite Htop, Hnr.
    unfold set_savepoints, set_tx_log. simpl. by rewrite <- app_assoc.
Qed.

Lemma scope_entry_eq (w : world) :
  never_raises db →
  let managing := negb (tx_managed db (tx_log w)) in
  let opened := if managing
                then [CEnterTransactionManagement; CManaged true] else [] in
  let log1 := tx_log w ++ opened ++ (CWrite <$> queuedSaves w) in
  let sp := sp_fresh db log1 in
  scope_entry db w =
    (Ok (mkSavepointContext sp managing),
     World (pkRegistry w) (savepoints w ++ [sp]) [] (s_instances w)
           (log1 ++ [CSavepoint]) (next_oid w)).
Proof.
  intros Hnr. simpl.
  unfold scope_entry, SavepointContext__init__, SavepointContext__enter__,
    transaction_is_managed.
  cbv [bind ret when tx_call]. simpl.
  destruct (tx_managed db (tx_log w)); simpl; rewrite ?Hnr; simpl; rewrite ?Hnr;
    rewrite pushSavepoint_eq; simpl; rewrite Hnr; simpl;
    unfold set_savepoints, set_tx_log; simpl;
    rewrite <- ?app_assoc; simpl; done.
Qed.

Lemma with_savepoint_eq {A} (body : M A) (w : world) :
  with_savepoint db body w =
    match scope_entry db w with
    | (Ok sc, w0) =>
        match body w0 with
        | (Ok a, w1) =>
            match SavepointContext__exit__ db sc None w1 with
            | (Ok _, w2) => (Ok a, w2)
            | (Raise e, w2) => (Raise e, w2)
            end
        | (Raise raised, w1) =>
            match SavepointContext__exit__ db sc (Some raised) w1 with
            | (Ok _, w2) => (Raise raised, w2)
            | (Raise e, w2) => (Raise e, w2)
            end
        end
    | (Raise e, w0) => (Raise e, w0)
    end.
Proof.
  unfold with_savepoint, scope_entry. cbv [bind ret raise].
  destruct (SavepointContext__init__ db w) as [[managing|e] w0]; [|done].
  destruct (SavepointContext__enter__ db managing w0) as [[sc|e] w1]; [|done].
  destruct (body w1) as [[a|raised] w2]; [|done].
  by destruct (SavepointContext__exit__ db sc None w2) as [[[]|e] w3].
Qed.

Lemma with_savepoint_balanced {A} (body : M A) (w : world) :
  never_raises db → balanced body →
  ∃ sc0 w0,
    scope_entry db w = (Ok sc0, w0) ∧
    managingTransaction sc0 = negb (tx_managed db (tx_log w)) ∧
    let out := with_savepoint db body w in
    out.1 = (body w0).1 ∧
    savepoints out.2 = savepoints w ∧
    open_transactions (tx_log out.2) = open_transactions (tx_log w) ∧
    tx_log out.2 =
      tx_log (body w0).2
      ++ match (body w0).1 with
         | Ok _ => (CWrite <$> queuedSaves (body w0).2)
                   ++ [CSavepointCommit (sc_savepoint sc0)]
                   ++ (if managingTransaction sc0 then [CCommit] else [])
         | Raise _ => [CSavepointRollback (sc_savepoint sc0)]
                      ++ (if managingTransaction sc0 then [CRollback] else [])
         end
      ++ release_calls sc0.
Proof.
  intros Hnr Hbal.
  pose proof (scope_entry_eq w Hnr) as He. cbv zeta in He.
  set (managing := negb (tx_managed db (tx_log w))) in *.
  set (opened := if managing then [CEnterTransactionManagement; CManaged true]
                 else []) in *.
  set (sp := sp_fresh db _) in *.
  set (w0 := World _ _ _ _ _ _) in He.
  exists (mkSavepointContext sp managing), w0.
  split; [exact He|]. split; [done|].
  rewrite with_savepoint_eq, He.
  destruct (Hbal w0) as [Hs Ho].
  set (type := match (body w0).1 with Ok _ => None | Raise e => Some e end).
  assert (Htop : last (savepoints (body w0).2) = Some sp).
  { rewrite Hs. simpl. apply last_snoc. }
  pose proof (exit_step_on_top (mkSavepointContext sp managing) type _ Hnr Htop)
    as Hstep.
  pose proof (exit_log (mkSavepointContext sp managing) type (body w0).2) as Hlog.
  pose proof (exit_result (mkSavepointContext sp managing) type (body w0).2 Hnr)
    as Hres.
  cbv zeta in Hlog. rewrite Hstep in Hlog, Hres. simpl in Hlog, Hres.
  destruct Hlog as (Hl1 & _ & _ & Hl4).
  assert (Hopen : open_transactions (tx_log (body w0).2)
                  = (open_transactions (tx_log w) + (if managing then 1 else 0))%Z).
  { rewrite Ho. simpl. rewrite !open_transactions_app, open_transactions_CWrite.
    unfold opened. destruct managing; simpl; lia. }
  unfold type in *. clear type.
  destruct (body w0) as [[a|raised] w1]; simpl in *.
  - destruct (SavepointContext__exit__ db _ None w1) as [[[]|e] w2];
      simpl in *; [|done].
    split; [done|]. split.
    { rewrite Hl1, Hs. apply removelast_snoc. }
    split.
    { rewrite Hl4, !open_transactions_app, open_transactions_CWrite, Hopen.
      unfold release_calls. destruct managing; simpl; lia. }
    rewrite Hl4. by rewrite <- !app_assoc.
  - destruct (SavepointContext__exit__ db _ (Some raised) w1) as [[[]|e] w2];
      simpl in *; [|done].
    split; [done|]. split.
    { rewrite Hl1, Hs. apply removelast_snoc. }
    split.
    { rewrite Hl4, !open_transactions_app, Hopen.
      unfold release_calls. destruct managing; simpl; lia. }
    rewrite Hl4. by rewrite <- !app_assoc.
Qed.

(** C4 (amended): [__exit__] commits the savepoint of the scope on a normal
    exit and rolls it back on an exceptional one; when that step returns and
    the scope started the outer transaction, the outer transaction is
    committed (respectively rolled back); when that step raises, no call is
    made on the outer transaction; in every case a scope that started the
    outer transaction ends with [leave_transaction_management].  When no call
    into the persistence layer raises and the block leaves the savepoint
    stack and the transaction-management depth as it found them, the scope
    (whether the block returns or raises, and the block's outcome is the
    scope's) leaves the stack and the depth as they were before it: nothing
    open when nothing was. *)
Theorem scoped_savepoint_block {A} (body : M A) (sc : SavepointContext)
    (type : option exn) (w : world) :
  (let step := exit_savepoint_step db sc type w in
   let out := SavepointContext__exit__ db sc type w in
   savepoints out.2 = savepoints step.2 ∧
   tx_log out.2 =
     tx_log step.2
     ++ match step.1 with
        | Ok _ => if managingTransaction sc then [exit_outer_call type] else []
        | Raise _ => []
        end
     ++ release_calls sc) ∧
  (managingTransaction sc = true →
   ∃ calls, tx_log (SavepointContext__exit__ db sc type w).2
            = calls ++ [CLeaveTransactionManagement]) ∧
  (never_raises db → last (savepoints w) = Some (sc_savepoint sc) →
   (SavepointContext__exit__ db sc type w).1 = Ok tt ∧
   savepoints (SavepointContext__exit__ db sc type w).2 = removelast (savepoints w) ∧
   tx_log (SavepointContext__exit__ db sc type w).2 =
     tx_log w
     ++ match type with
        | None => (CWrite <$> queuedSaves w) ++ [CSavepointCommit (sc_savepoint sc)]
        | Some _ => [CSavepointRollback (sc_savepoint sc)]
        end
     ++ (if managingTransaction sc then [exit_outer_call type] else [])
     ++ release_calls sc) ∧
  (never_raises db → balanced body →
   ∃ sc0 w0,
     scope_entry db w = (Ok sc0, w0) ∧
     managingTransaction sc0 = negb (tx_managed db (tx_log w)) ∧
     let out := with_savepoint db body w in
     out.1 = (body w0).1 ∧
     savepoints out.2 = savepoints w ∧
     open_transactions (tx_log out.2) = open_transactions (tx_log w) ∧
     tx_log out.2 =
       tx_log (body w0).2
       ++ match (body w0).1 with
          | Ok _ => (CWrite <$> queuedSaves (body w0).2)
                    ++ [CSavepointCommit (sc_savepoint sc0)]
                    ++ (if managingTransaction sc0 then [CCommit] else [])
          | Raise _ => [CSavepointRollback (sc_savepoint sc0)]
                       ++ (if managingTransaction sc0 then [CRollback] else [])
          end
       ++ release_calls sc0).
Proof.
  pose proof (exit_log sc type w) as Hlog. cbv zeta in Hlog.
  destruct Hlog as (Hl1 & _ & _ & Hl4).
  split; [by split|]. split; [|split].
  - intros Hm. rewrite Hl4. unfold release_calls. rewrite Hm.
    eexists. by rewrite app_assoc.
  - intros Hnr Htop.
    pose proof (exit_step_on_top sc type w Hnr Htop) as Hstep.
    pose proof (exit_result sc type w Hnr) as Hres.
    rewrite Hstep in Hl1, Hl4, Hres. simpl in *.
    split; [done|]. split; [done|]. rewrite Hl4. by rewrite <- !app_assoc.
  - apply with_savepoint_balanced.
Qed.

End SavepointProperties.

(** C4, as stated, fails: on an exceptional exit of a scope that started the
    outer transaction, when the rollback of the savepoint raises, either
    from the stack discipline (the block left a savepoint of its own open)
    or from the persistence layer, [transaction.rollback] is never called;
    and a block that leaves a savepoint open leaves both savepoints on the
    stack after the scope. *)
Lemma exit_skips_outer_rollback :
  SavepointContext__exit__ quiet_db (mkSavepointContext "s1" true)
      (Some (UserError 0)) nested_context
    = (Raise (ValueError not_top_msg),
       World ∅ ["s1"; "s2"] [] true [CLeaveTransactionManagement] 0) ∧
  SavepointContext__exit__ rollback_failing_db (mkSavepointContext "s2" true)
      (Some (UserError 0)) nested_context
    = (Raise (DatabaseError 1),
       World ∅ ["s1"; "s2"] [] true
             [CSavepointRollback "s2"; CLeaveTransactionManagement] 0) ∧
  with_savepoint quiet_db (pushSavepoint quiet_db ;; @raise unit (UserError 0))
      fresh_context
    = (Raise (ValueError not_top_msg),
       World ∅ ["s2"; "s3"] [] true
             [CEnterTransactionManagement; CManaged true; CSavepoint;
              CSavepoint; CLeaveTransactionManagement] 0).
Proof. repeat split; vm_compute; reflexivity. Qed.

Lemma quiet_db_never_raises : never_raises quiet_db.
Proof. intros log c. reflexivity. Defined.

Lemma ret_balanced {A} (a : A) : balanced (ret a).
Proof. intros w. split; reflexivity. Defined.

Lemma raise_balanced {A} (e : exn) : balanced (@raise A e).
Proof. intros w. split; reflexivity. Defined.

Lemma savepoint_stack_discipline_witness :
  (commitSavepoint quiet_db "s2" three_deep).1 = Raise (ValueError not_top_msg) ∧
  (rollbackSavepoint quiet_db "s1" three_deep).1 = Raise (ValueError not_top_msg) ∧
  (commitSavepoint quiet_db "s3" three_deep).1 = Ok tt ∧
  last (savepoints (commitSavepoint quiet_db "s3" three_deep).2) = Some "s2".
Proof.
  destruct (savepoint_stack_discipline quiet_db "s3" three_deep) as (_ & _ & _ & H).
  destruct (H [] "s1" "s2" "s3" eq_refl ltac:(discriminate) ltac:(discriminate))
    as (H1 & H2 & H3).
  destruct (H3 eq_refl) as (H4 & _ & H5).
  exact (conj H1 (conj H2 (conj H4 H5))).
Defined.

(** The scenario of two nested savepoints: the outer one cannot be committed
    before the inner one, and after both commits the stack is empty. *)
Example nested_savepoints_scenario :
  (s1 <- pushSavepoint quiet_db ;;
   s2 <- pushSavepoint quiet_db ;;
   try_finally (commitSavepoint quiet_db s1)
     (commitSavepoint quiet_db s2 ;; commitSavepoint quiet_db s1)) fresh_context
  = (Raise (ValueError not_top_msg),
     World ∅ [] [] true
           [CSavepoint; CSavepoint; CSavepointCommit "s1"; CSavepointCommit "s0"] 0).
Proof. vm_compute. reflexivity. Qed.

Lemma failed_discipline_check_leaves_stack_witness :
  savepoints (commitSavepoint quiet_db "s1" fresh_context).2 = [] ∧
  tx_log (rollbackSavepoint quiet_db "s1" fresh_context).2 = [] ∧
  savepoints (rollbackSavepoint quiet_db "s2" three_deep).2 = ["s1"; "s2"; "s3"] ∧
  tx_log (commitSavepoint quiet_db "s2" three_deep).2 = [CWrite 7; CWrite 8].
Proof.
  pose proof (failed_discipline_check_leaves_stack quiet_db "s1" fresh_context
                (empty_stack_has_no_top "s1" fresh_context eq_refl)) as H.
  pose proof (failed_discipline_check_leaves_stack quiet_db "s2" three_deep
                ltac:(discriminate)) as H'.
  cbv zeta in H, H'.
  destruct H as (_ & _ & H1 & _ & _ & H2 & _).
  destruct H' as (_ & _ & _ & H3 & H4 & _).
  exact (conj H1 (conj H2 (conj H3 H4))).
Defined.

Lemma scoped_savepoint_block_witness :
  (with_savepoint quiet_db (ret 5) fresh_context).1 = Ok 5 ∧
  savepoints (with_savepoint quiet_db (ret 5) fresh_context).2 = [] ∧
  open_transactions (tx_log (with_savepoint quiet_db (ret 5) fresh_context).2) = 0%Z ∧
  (with_savepoint quiet_db (@raise nat (UserError 3)) fresh_context).1
    = Raise (UserError 3) ∧
  savepoints (with_savepoint quiet_db (@raise nat (UserError 3)) fresh_context).2 = [] ∧
  open_transactions
    (tx_log (with_savepoint quiet_db (@raise nat (UserError 3)) fresh_context).2) = 0%Z.
Proof.
  destruct (scoped_savepoint_block quiet_db (ret 5) (mkSavepointContext "s0" true)
              None fresh_context) as (_ & _ & _ & H).
  destruct (H quiet_db_never_raises (ret_balanced 5))
    as (sc0 & w0 & _ & _ & H1 & H2 & H3 & _).
  destruct (scoped_savepoint_block quiet_db (@raise nat (UserError 3))
              (mkSavepointContext "s0" true) None fresh_context) as (_ & _ & _ & H').
  destruct (H' quiet_db_never_raises (raise_balanced (UserError 3)))
    as (sc1 & w1 & _ & _ & H4 & H5 & H6 & _).
  exact (conj H1 (conj H2 (conj H3 (conj H4 (conj H5 H6))))).
Defined.

Lemma deferred_writes_at_boundaries_witness :
  tx_log (pushSavepoint quiet_db three_deep).2 = [CWrite 7; CWrite 8; CSavepoint] ∧
  tx_log (commitSavepoint quiet_db "s3" three_deep).2
    = [CWrite 7; CWrite 8; CSavepointCommit "s3"] ∧
  writes_of (tx_log (for_each [BPush; BCommit "s3"; BRollback "s2"]
                       (run_boundary quiet_db)
                       (pushSavepoint quiet_db three_deep).2).2) = [7; 8] ∧
  writes_of (tx_log (for_each [BPush; BCommit "s1"]
                       (run_boundary quiet_db)
                       (rollbackSavepoint quiet_db "s3" three_deep).2).2) = [].
Proof.
  pose proof (deferred_writes_at_boundaries quiet_db three_deep "s3"
                [BPush; BCommit "s3"; BRollback "s2"]) as H.
  pose proof (deferred_writes_at_boundaries quiet_db three_deep "s3"
                [BPush; BCommit "s1"]) as H'.
  cbv zeta in H, H'.
  destruct H as (H1 & H2 & _ & _ & H3 & _).
  destruct H' as (_ & _ & _ & _ & _ & _ & _ & _ & H4).
  exact (conj H1 (conj (H2 eq_refl) (conj H3 H4))).
Defined.

(** ** Cache-aware [get] *)

Lemma registeredEntities_spec (entityType : string) (w : world) (p : pyval) (obj : Entity) :
  (p, obj) ∈ registeredEntities entityType w ↔
  pkRegistry w !! (entityType, p) = Some obj.
Proof.
  unfold registeredEntities. rewrite list_elem_of_omap. split.
  - intros ([[t k] o] & Hin & Hf). apply elem_of_map_to_list in Hin.
    simpl in Hf. destruct (decide (t = entityType)) as [->|]; [|done].
    by injection Hf as <- <-.
  - intros H. exists ((entityType, p), obj). split.
    + by apply elem_of_map_to_list.
    + simpl. by rewrite decide_True.
Qed.

Lemma scan_one_to_one_found (field : Field) (v : pyval)
    (candidates : list (pyval * Entity)) (obj : Entity) :
  scan_one_to_one field v candidates = Some obj →
  ∃ p, (p, obj) ∈ candidates ∧ getattr_or_None obj (fname field +:+ "_id") = v.
Proof.
  unfold scan_one_to_one. intros H.
  destruct (List.find _ candidates) as [[p o]|] eqn:Hf; [|done].
  simpl in H. injection H as <-. apply find_some in Hf as [Hin Hb].
  exists p. split; [by apply list_elem_of_In|].
  by apply bool_decide_eq_true in Hb.
Qed.

Lemma scan_one_to_one_none (field : Field) (v : pyval)
    (candidates : list (pyval * Entity)) :
  scan_one_to_one field v candidates = None →
  ∀ p obj, (p, obj) ∈ candidates →
           getattr_or_None obj (fname field +:+ "_id") ≠ v.
Proof.
  unfold scan_one_to_one. intros H p obj Hin.
  destruct (List.find _ candidates) as [c|] eqn:Hf; [done|].
  apply list_elem_of_In in Hin.
  pose proof (find_none _ _ Hf _ Hin) as Hb. simpl in Hb.
  by apply bool_decide_eq_false in Hb.
Qed.

(** C8 (amended): [get] hands the lookup to [regdLookup], with the normal
    query as the fetch function, exactly in the case that a context exists,
    there is one keyword criterion (the positional arguments are neither
    counted nor read), its name with a trailing [__exact] removed is in
    [pkAttNames], and its value is a UUID.  With a context and one keyword
    criterion that is not such a primary-key lookup but names an entry of
    [oneToOneAttNames], the registered entities of the model are scanned for
    one whose [<field>_id] equals the value, and the normal query runs only
    when the scan finds none.  In every other case [get] is the normal
    query. *)
Theorem get_dispatch (self : ContextAwareManager)
    (super_get : list qobject → list (string * pyval) → M Entity)
    (args : list qobject) (kw : list (string * pyval)) (w : world) :
  let query := (e <- super_get args kw ;; ret (Some e)) in
  let name := mname (model self) in
  let pk_lookup k v :=
    strip_exact k ∈ pkAttNames self ∧ isinstance_UUID v = true in
  (∀ k v,
     s_instances w = true → kw = [(k, v)] → pk_lookup k v →
     ContextAwareManager_get self super_get args kw w
       = regdLookup name v (Some query) w) ∧
  (∀ k v field,
     s_instances w = true → kw = [(k, v)] → ¬ pk_lookup k v →
     oneToOneAttNames self !! strip_exact k = Some field →
     ContextAwareManager_get self super_get args kw w
       = match scan_one_to_one field v (registeredEntities name w) with
         | Some obj => (Ok (Some obj), w)
         | None => query w
         end ∧
     (∀ obj, scan_one_to_one field v (registeredEntities name w) = Some obj →
        ∃ p, pkRegistry w !! (name, p) = Some obj ∧
             getattr_or_None obj (fname field +:+ "_id") = v) ∧
     (scan_one_to_one field v (registeredEntities name w) = None →
        ∀ p obj, pkRegistry w !! (name, p) = Some obj →
                 getattr_or_None obj (fname field +:+ "_id") ≠ v)) ∧
  (s_instances w = false ∨ length kw ≠ 1 ∨
   (∃ k v, kw = [(k, v)] ∧ ¬ pk_lookup k v ∧
           oneToOneAttNames self !! strip_exact k = None) →
   ContextAwareManager_get self super_get args kw w = query w).
Proof.
  intros query name pk_lookup.
  assert (Hpk : ∀ k v, pk_lookup k v ↔
            isinstance_UUID v && bool_decide (strip_exact k ∈ pkAttNames self) = true).
  { intros k v. unfold pk_lookup.
    rewrite andb_true_iff, bool_decide_eq_true. tauto. }
  split; [|split].
  - intros k v Hs -> Hc. apply Hpk in Hc.
    unfold ContextAwareManager_get, bind. rewrite (current_found true w Hs).
    simpl. by rewrite Hc.
  - intros k v field Hs -> Hc Ho.
    assert (Hb : isinstance_UUID v
                 && bool_decide (strip_exact k ∈ pkAttNames self) = false).
    { destruct (isinstance_UUID v && _) eqn:E; [|done].
      by apply Hpk in E. }
    split; [|split].
    + unfold ContextAwareManager_get, bind. rewrite (current_found true w Hs).
      simpl. by rewrite Hb, Ho.
    + intros obj Hscan. apply scan_one_to_one_found in Hscan as (p & Hin & Hv).
      exists p. split; [by apply registeredEntities_spec|done].
    + intros Hscan p obj Hreg.
      apply (scan_one_to_one_none _ _ _ Hscan p).
      by apply registeredEntities_spec.
  - intros [Hs|[Hlen|(k & v & -> & Hc & Ho)]].
    + unfold ContextAwareManager_get, bind, current. by rewrite Hs.
    + unfold ContextAwareManager_get, bind.
      destruct (current true w) as [[context|e] w'] eqn:Hcur.
      * assert (w' = w) as -> by (by rewrite <- (current_state true w), Hcur).
        destruct kw as [|c [|c' kw]]; simpl in *; try done;
          rewrite andb_false_r; done.
      * unfold current in Hcur. by destruct (s_instances w).
    + assert (Hb : isinstance_UUID v
                   && bool_decide (strip_exact k ∈ pkAttNames self) = false).
      { destruct (isinstance_UUID v && _) eqn:E; [|done].
        by apply Hpk in E. }
      unfold ContextAwareManager_get, bind, current.
      destruct (s_instances w); simpl; [|done]. by rewrite Hb, Ho.
Qed.

(** C8, as stated, fails: a call with a positional criterion beside its single
    keyword criterion has two criteria, and [get] still answers it from the
    registry; the cached instance comes back and the query, which raises
    here, is not run. *)
Lemma get_ignores_positional_criteria :
  length (positional_Q : list qobject) + length [("pk", PyUUID 1)] = 2 ∧
  ContextAwareManager_get leaf_objects query_finds_nothing positional_Q
      [("pk", PyUUID 1)] context_with_leaf
    = regdLookup "Leaf" (PyUUID 1)
        (Some (e <- query_finds_nothing positional_Q [("pk", PyUUID 1)] ;;
               ret (Some e)))
        context_with_leaf ∧
  ContextAwareManager_get leaf_objects query_finds_nothing positional_Q
      [("pk", PyUUID 1)] context_with_leaf
    = (Ok (Some leaf_owned), context_with_leaf) ∧
  query_finds_nothing positional_Q [("pk", PyUUID 1)] context_with_leaf
    = (Raise DoesNotExist, context_with_leaf).
Proof. repeat split; vm_compute; reflexivity. Qed.

Lemma get_dispatch_witness :
  ContextAwareManager_get leaf_objects query_finds_nothing []
      [("pk__exact", PyUUID 1)] context_with_leaf
    = regdLookup "Leaf" (PyUUID 1)
        (Some (e <- query_finds_nothing [] [("pk__exact", PyUUID 1)] ;; ret (Some e)))
        context_with_leaf ∧
  ContextAwareManager_get leaf_objects query_finds_nothing []
      [("owner__pk", PyInt 9)] context_with_leaf
    = (Ok (Some leaf_owned), context_with_leaf) ∧
  ContextAwareManager_get leaf_objects query_finds_nothing []
      [("pk", PyInt 1)] context_with_leaf
    = (Raise DoesNotExist, context_with_leaf).
Proof.
  pose proof (get_dispatch leaf_objects query_finds_nothing []
                [("pk__exact", PyUUID 1)] context_with_leaf) as H1.
  pose proof (get_dispatch leaf_objects query_finds_nothing []
                [("owner__pk", PyInt 9)] context_with_leaf) as H2.
  pose proof (get_dispatch leaf_objects query_finds_nothing []
                [("pk", PyInt 1)] context_with_leaf) as H3.
  cbv zeta in H1, H2, H3.
  destruct H1 as (H1 & _). destruct H2 as (_ & H2 & _). destruct H3 as (_ & _ & H3).
  split; [|split].
  - apply (H1 "pk__exact" (PyUUID 1) eq_refl eq_refl).
    split; [|reflexivity]. apply (bool_decide_unpack _). exact I.
  - destruct (H2 "owner__pk" (PyInt 9) owner_field eq_refl eq_refl) as (H & _).
    + intros [_ Hv]. discriminate Hv.
    + reflexivity.
    + exact H.
  - apply H3. right. right. exists "pk", (PyInt 1).
    split; [reflexivity|]. split; [|reflexivity].
    intros [_ Hv]. discriminate Hv.
Defined.

(** ** Parent rows *)

Lemma parents_loop_linear (n : nat) :
  ∀ (m : Model) (names : gset string) (classes : list Model) (last : option Model),
    (model_size m ≤ n)%nat → linear m →
    ∃ names' last',
      parents_loop (meta_parents m) names classes last
        = (names', classes ++ chain m, last').
Proof.
  induction n as [|n IH]; intros m names classes last Hn Hlin.
  - destruct m. simpl in Hn. lia.
  - destruct m as [name pkf fs [|[parent link] [|]]]; simpl in Hlin; [| |done].
    + simpl. simp parents_loop. rewrite app_nil_r. by eexists _, _.
    + simpl. simp parents_loop. simpl.
      destruct (IH parent (names ∪ {[fname link +:+ "__pk"]}) (classes ++ [parent])
                  (Some parent)) as (names' & last' & Heq); [|done|].
      { simpl in Hn. lia. }
      rewrite Heq. rewrite <- app_assoc. by eexists _, _.
Qed.

Lemma contribute_to_class_linear (m : Model) (objects : ContextAwareManager) :
  linear m → contribute_to_class m = Fine objects →
  model objects = m ∧ parentEntityClasses objects = reverse (chain m).
Proof.
  intros Hlin. unfold contribute_to_class.
  destruct (parents_loop_linear (model_size m) m {["pk"]} [] None)
    as (names' & last' & Heq); [done|done|].
  rewrite Heq. simpl.
  destruct last' as [parent|].
  - destruct (meta_pk parent); [|done]. by intros [= <-].
  - by intros [= <-].
Qed.

Lemma parents_loop_order (n : nat) :
  ∀ (queue : list (Model * Field)) (names : gset string) (classes : list Model)
    (parentClass : option Model),
    (queue_size queue ≤ n)%nat →
    ∃ visited,
      (parents_loop queue names classes parentClass).1.2 = classes ++ visited ∧
      (∀ pf, pf ∈ queue → pf.1 ∈ visited) ∧
      (∀ i child parent link,
         visited !! i = Some child → (parent, link) ∈ meta_parents child →
         ∃ j, (i < j)%nat ∧ visited !! j = Some parent) ∧
      (∀ x, x ∈ visited → (model_size x ≤ queue_size queue)%nat).
Proof.
  induction n as [|n IH]; intros queue names classes parentClass Hn.
  - destruct queue as [|[[name pkf fs ps] link] queue].
    + exists []. simp parents_loop. simpl. rewrite app_nil_r.
      split; [done|]. split; [|split].
      * intros pf Hpf. by apply elem_of_nil in Hpf.
      * intros i child parent link Hi. by rewrite lookup_nil in Hi.
      * intros x Hx. by apply elem_of_nil in Hx.
    + unfold queue_size in Hn. simpl in Hn. lia.
  - destruct queue as [|[first link] queue].
    + exists []. simp parents_loop. simpl. rewrite app_nil_r.
      split; [done|]. split; [|split].
      * intros pf Hpf. by apply elem_of_nil in Hpf.
      * intros i child parent link' Hi. by rewrite lookup_nil in Hi.
      * intros x Hx. by apply elem_of_nil in Hx.
    + simp parents_loop.
      assert (Hsize : (queue_size (queue ++ meta_parents first)
                       < queue_size ((first, link) :: queue))%nat).
      { unfold queue_size. rewrite map_app, list_sum_app.
        destruct first as [name pkf fs ps]. simpl. lia. }
      destruct (IH (queue ++ meta_parents first) (names ∪ {[fname link +:+ "__pk"]})
                  (classes ++ [first]) (Some first))
        as (visited & Hloop & Hin & Horder & Hsmall); [lia|].
      exists (first :: visited). rewrite Hloop, <- app_assoc.
      split; [done|]. split; [|split].
      * intros pf Hpf. apply elem_of_cons in Hpf as [->|Hpf]; [by left|].
        right. apply Hin. apply elem_of_app. by left.
      * intros [|i] child parent link' Hi Hparent.
        -- injection Hi as <-.
           assert (Hp : parent ∈ visited).
           { apply (Hin (parent, link')). apply elem_of_app. by right. }
           apply list_elem_of_lookup_1 in Hp as [j Hj].
           exists (S j). split; [lia|done].
        -- destruct (Horder i child parent link' Hi Hparent) as (j & Hlt & Hj).
           exists (S j). split; [lia|done].
      * intros x Hx. apply elem_of_cons in Hx as [->|Hx].
        -- unfold queue_size. simpl. lia.
        -- specialize (Hsmall x Hx). lia.
Qed.

Lemma contribute_to_class_order (m : Model) (objects : ContextAwareManager) :
  contribute_to_class m = Fine objects →
  (m ∉ parentEntityClasses objects) ∧
  (∀ parent link, (parent, link) ∈ meta_parents m →
                  parent ∈ parentEntityClasses objects) ∧
  (∀ i child parent link,
     parentEntityClasses objects !! i = Some child →
     (parent, link) ∈ meta_parents child →
     ∃ j, (j < i)%nat ∧ parentEntityClasses objects !! j = Some parent).
Proof.
  destruct (parents_loop_order (queue_size (meta_parents m)) (meta_parents m)
              {[ "pk" ]} [] None) as (visited & Hloop & Hin & Horder & Hsmall); [done|].
  intros Hfine.
  assert (Hclasses : parentEntityClasses objects = reverse visited).
  { unfold contribute_to_class in Hfine.
    destruct (parents_loop (meta_parents m) {[ "pk" ]} [] None)
      as [[names classes] last'].
    simpl in Hloop. subst classes.
    destruct last' as [root|].
    - destruct (meta_pk root); [|done]. by injection Hfine as <-.
    - by injection Hfine as <-. }
  rewrite Hclasses. split; [|split].
  - intros Hown. rewrite elem_of_reverse in Hown. specialize (Hsmall m Hown).
    destruct m as [name pkf fs ps]. unfold queue_size in Hsmall. simpl in Hsmall. lia.
  - intros parent link Hparent. apply elem_of_reverse. by apply (Hin (parent, link)).
  - intros i child parent link Hi Hparent.
    apply reverse_lookup_Some in Hi as [Hi Hlen].
    destruct (Horder _ child parent link Hi Hparent) as (j & Hlt & Hj).
    pose proof (lookup_lt_Some _ _ _ Hj) as Hjlen.
    exists (length visited - S j)%nat. split; [lia|].
    apply reverse_lookup_Some. split; [|lia].
    replace (length visited - S (length visited - S j))%nat with j by lia. done.
Qed.

Lemma regd_keeps_registry_wf (entity : option Entity) : keeps registry_wf (regd entity).
Proof.
  intros w Hwf. unfold regd. destruct (isRegisterable entity); [|done].
  destruct entity as [e|]; [|done].
  destruct (pkRegistry w !! regkey e) eqn:Hk; [done|]. simpl.
  intros k e' Hl. simpl in Hl.
  destruct (decide (regkey e = k)) as [<-|Hne].
  - rewrite lookup_insert_eq in Hl. by injection Hl as <-.
  - rewrite lookup_insert_ne in Hl by done. by apply Hwf.
Qed.

(** [regd] binds no key but that of a registerable argument. *)
Lemma regd_new_key (entity : option Entity) (w : world) (k : string * pyval) :
  is_Some (pkRegistry (regd entity w).2 !! k) →
  is_Some (pkRegistry w !! k) ∨
  ∃ e, entity = Some e ∧ isRegisterable (Some e) = true ∧ regkey e = k.
Proof.
  unfold regd. destruct (isRegisterable entity) eqn:Hreg; [|by left].
  destruct entity as [e|]; [|by left].
  destruct (pkRegistry w !! regkey e) eqn:Hk; [by left|]. simpl.
  destruct (decide (regkey e = k)) as [<-|Hne].
  - intros _. right. by exists e.
  - rewrite lookup_insert_ne by done. by left.
Qed.

Lemma register_rows_cons (e : Entity) (rows : list Entity) (w : world) :
  register_rows (e :: rows) w = register_rows rows (regd (Some e) w).2.
Proof.
  unfold register_rows. cbn [for_each]. unfold bind at 1 2.
  destruct (regd_never_raises (Some e) w) as [r Hr].
  destruct (regd (Some e) w) as [r' w1]. simpl in Hr. by subst r'.
Qed.

Lemma register_rows_spec (rows : list Entity) (w : world) :
  let out := register_rows rows w in
  out.1 = Ok tt ∧
  pkRegistry w ⊆ pkRegistry out.2 ∧
  next_oid out.2 = next_oid w ∧
  (∀ e, e ∈ rows → isRegisterable (Some e) = true →
        is_Some (pkRegistry out.2 !! regkey e)) ∧
  ((∀ e, e ∈ rows → isRegisterable (Some e) = true →
         is_Some (pkRegistry w !! regkey e)) →
   pkRegistry out.2 = pkRegistry w) ∧
  (registry_wf w → registry_wf out.2) ∧
  (∀ k, is_Some (pkRegistry out.2 !! k) →
        is_Some (pkRegistry w !! k) ∨
        ∃ e, e ∈ rows ∧ isRegisterable (Some e) = true ∧ regkey e = k).
Proof.
  cbv zeta. revert w. induction rows as [|e rows IH]; intros w.
  - split; [done|]. split; [done|]. split; [done|].
    split; [|split; [done|split; [done|by left]]].
    intros e He. by apply elem_of_nil in He.
  - rewrite register_rows_cons.
    pose proof (regd_registry_grows (Some e) w) as Hgrow.
    pose proof (regd_touches_registry_only (Some e) w) as Hframe.
    pose proof (regd_keeps_registry_wf (Some e) w) as Hwf.
    cbv zeta in Hframe. destruct Hframe as (_ & _ & _ & _ & Hoid).
    set (w1 := (regd (Some e) w).2) in *.
    destruct (IH w1) as (H1 & H2 & H3 & H4 & H5 & H6 & H7).
    split; [done|]. split; [by etrans|]. split; [congruence|].
    split; [|split; [|split]].
    + intros e' He' Hreg. apply elem_of_cons in He' as [->|He'].
      * assert (is_Some (pkRegistry w1 !! regkey e)) as [c Hc].
        { unfold w1. destruct (pkRegistry w !! regkey e) as [c|] eqn:Hk.
          - rewrite (regd_cached e c w Hreg Hk). by eexists.
          - rewrite (regd_stored e w Hreg Hk). simpl.
            rewrite lookup_insert_eq. by eexists. }
        exists c. by eapply lookup_weaken.
      * by apply H4.
    + intros Hall.
      assert (Hsame : w1 = w).
      { unfold w1. destruct (isRegisterable (Some e)) eqn:Hreg.
        - destruct (Hall e) as [c Hc]; [by left|done|].
          by rewrite (regd_cached e c w Hreg Hc).
        - by rewrite (regd_not_registerable (Some e) w Hreg). }
      trans (pkRegistry w1); [|by rewrite Hsame].
      apply H5. intros e' He' Hreg'.
      rewrite Hsame. apply Hall; [by right|done].
    + intros Hw. by apply H6, Hwf.
    + intros k Hk. destruct (H7 k Hk) as [Hin|(e' & He' & Hreg' & Hkey')].
      * destruct (regd_new_key (Some e) w k Hin) as [Hw|(e0 & [= <-] & Hreg & Hkey)].
        -- by left.
        -- right. exists e. split; [by left|done].
      * right. exists e'. split; [by right|done].
Qed.

Section ParentsProperties.

Variable table : string → list pyval.

Variable type_policy : string → policy.

Lemma fetched_row_shape (parentClass : Model) (pks : list pyval) (w : world)
    (rows : list Entity) (w' : world) (e : Entity) :
  fetchEntities table type_policy parentClass pks w = (Ok rows, w') →
  e ∈ rows →
  regkey e = (mname parentClass, pk e) ∧
  pk e ∈ table (mname parentClass) ∧ pk e ∈ pks ∧
  isRegisterable (Some e)
    = row_registerable type_policy (mname parentClass) (pk e).
Proof.
  unfold fetchEntities. intros [= <- <-] He.
  apply elem_of_lookup_imap in He as (i & p & -> & Hp). simpl.
  apply list_elem_of_lookup_2, list_elem_of_filter in Hp as [Hp1 Hp2].
  done.
Qed.

Lemma fetched_row_covers (parentClass : Model) (pks : list pyval) (w : world)
    (rows : list Entity) (w' : world) (p : pyval) :
  fetchEntities table type_policy parentClass pks w = (Ok rows, w') →
  p ∈ table (mname parentClass) → p ∈ pks →
  ∃ e, e ∈ rows ∧ pk e = p.
Proof.
  unfold fetchEntities. intros [= <- <-] Ht Hp.
  assert (Hin : p ∈ filter (λ p, p ∈ pks) (table (mname parentClass))).
  { by apply list_elem_of_filter. }
  apply list_elem_of_lookup in Hin as [i Hi].
  eexists. split; [by eapply elem_of_lookup_imap_2|done].
Qed.

Lemma fetchEntities_returns (parentClass : Model) (pks : list pyval) (w : world) :
  ∃ rows w', fetchEntities table type_policy parentClass pks w = (Ok rows, w') ∧
             pkRegistry w' = pkRegistry w.
Proof. unfold fetchEntities. by eexists _, _. Qed.

Lemma registerParentEntities_unfold (objects : ContextAwareManager)
    (entities : list Entity) :
  registerParentEntities table type_policy objects entities
    = for_each (parentEntityClasses objects)
               (register_parents_of table type_policy (pk <$> entities)).
Proof. reflexivity. Qed.

Lemma register_parents_cons (c : Model) (classes : list Model) (pks : list pyval)
    (w : world) :
  ∃ rows w0,
    fetchEntities table type_policy c pks w = (Ok rows, w0) ∧
    pkRegistry w0 = pkRegistry w ∧
    for_each (c :: classes) (register_parents_of table type_policy pks) w
      = for_each classes (register_parents_of table type_policy pks) (register_rows rows w0).2.
Proof.
  destruct (fetchEntities_returns c pks w) as (rows & w0 & Hfetch & Hreg0).
  exists rows, w0. split; [done|]. split; [done|].
  cbn [for_each]. unfold register_parents_of at 1. unfold bind at 1 2.
  rewrite Hfetch.
  destruct (register_rows_spec rows w0) as (H1 & _).
  destruct (register_rows rows w0) as [r w1]. simpl in H1. by subst r.
Qed.

Lemma register_parents_loop (classes : list Model) (pks : list pyval) (w : world) :
  let out := for_each classes (register_parents_of table type_policy pks) w in
  out.1 = Ok tt ∧
  pkRegistry w ⊆ pkRegistry out.2 ∧
  (∀ k, selected table type_policy classes pks k →
        is_Some (pkRegistry out.2 !! k)) ∧
  ((∀ k, selected table type_policy classes pks k →
         is_Some (pkRegistry w !! k)) →
   pkRegistry out.2 = pkRegistry w) ∧
  (registry_wf w → registry_wf out.2) ∧
  (∀ k, is_Some (pkRegistry out.2 !! k) →
        is_Some (pkRegistry w !! k) ∨ selected table type_policy classes pks k).
Proof.
  cbv zeta. revert w. induction classes as [|c classes IH]; intros w.
  - split; [done|]. split; [done|].
    split; [|split; [done|split; [done|by left]]].
    intros k (c & Hc & _). by apply elem_of_nil in Hc.
  - destruct (register_parents_cons c classes pks w)
      as (rows & w0 & Hfetch & Hreg0 & ->).
    pose proof (register_rows_spec rows w0) as Hrows. cbv zeta in Hrows.
    destruct Hrows as (_ & R2 & _ & R4 & R5 & R6 & R7).
    set (w1 := (register_rows rows w0).2) in *.
    destruct (IH w1) as (H1 & H2 & H3 & H4 & H5 & H6).
    rewrite Hreg0 in R2.
    split; [done|]. split; [by etrans|]. split; [|split; [|split]].
    + intros [name p] (c' & Hc' & Hname & Ht & Hp & Hr).
      simpl in Hname, Ht, Hp, Hr. subst name.
      apply elem_of_cons in Hc' as [->|Hc'].
      * destruct (fetched_row_covers c pks w rows w0 p Hfetch Ht Hp)
          as (e & He & Hpk).
        destruct (fetched_row_shape c pks w rows w0 e Hfetch He)
          as (Hkey & _ & _ & Hreg).
        rewrite Hpk in Hkey, Hreg. rewrite <- Hkey.
        destruct (R4 e He) as [x Hx]; [by rewrite Hreg|].
        exists x. by eapply lookup_weaken.
      * apply H3. by exists c'.
    + intros Hall.
      assert (Hsame : pkRegistry w1 = pkRegistry w).
      { rewrite <- Hreg0. apply R5. intros e He Hreg.
        destruct (fetched_row_shape c pks w rows w0 e Hfetch He)
          as (Hkey & Ht & Hp & Hr).
        rewrite Hreg0, Hkey. apply Hall. exists c.
        split; [by left|]. simpl. by rewrite <- Hr. }
      rewrite <- Hsame. apply H4. intros k (c' & Hc' & Hk).
      rewrite Hsame. apply Hall. exists c'. split; [by right|done].
    + intros Hw. apply H5, R6. intros k e. rewrite Hreg0. apply Hw.
    + intros k Hk. destruct (H6 k Hk) as [Hin|(c' & Hc' & Hsel)].
      * destruct (R7 k Hin) as [Hw|(e & He & Hreg & Hkey)].
        -- left. by rewrite <- Hreg0.
        -- right. exists c.
           destruct (fetched_row_shape c pks w rows w0 e Hfetch He)
             as (Hkey' & Ht & Hp & Hr).
           rewrite Hkey' in Hkey. subst k. simpl.
           split; [by left|]. by rewrite <- Hr.
      * right. exists c'. split; [by right|done].
Qed.

(** C9 (amended): [registerParentEntities] fetches, for each class of
    [parentEntityClasses], the rows whose primary key is among those of the
    given entities and passes each through [regd].  Afterwards every such row
    that passes the registration test of [regd] has an instance under its
    (ancestor type, pk), a single one since the registry is a map; a row that
    fails the test is not registered; what was registered before is untouched
    and no other key is bound.  A second call keeps every entry of the
    first, the same objects, and when its entities bring no new primary key
    the registry is exactly what the first call left.  [parentEntityClasses]
    does not hold the class itself, holds its parents and lists every class
    after its own parents, most-base first; for a class with one concrete parent at every
    level it is the chain of ancestors from the root down to the parent. *)
Theorem registerParentEntities_duplicate_free (objects : ContextAwareManager)
    (entities again : list Entity) (w : world) :
  let first := registerParentEntities table type_policy objects entities w in
  let second := registerParentEntities table type_policy objects again first.2 in
  first.1 = Ok tt ∧ second.1 = Ok tt ∧
  (∀ parentClass p,
     parentClass ∈ parentEntityClasses objects →
     p ∈ table (mname parentClass) → p ∈ pk <$> entities →
     row_registerable type_policy (mname parentClass) p = true →
     ∃ row, pkRegistry first.2 !! (mname parentClass, p) = Some row ∧
            (registry_wf w → cls row = mname parentClass ∧ pk row = p)) ∧
  pkRegistry w ⊆ pkRegistry first.2 ∧
  (∀ k, is_Some (pkRegistry first.2 !! k) ↔
        is_Some (pkRegistry w !! k) ∨
        selected table type_policy (parentEntityClasses objects) (pk <$> entities) k) ∧
  pkRegistry first.2 ⊆ pkRegistry second.2 ∧
  ((∀ p, p ∈ pk <$> again → p ∈ pk <$> entities) →
   pkRegistry second.2 = pkRegistry first.2) ∧
  (∀ m, contribute_to_class m = Fine objects →
        (m ∉ parentEntityClasses objects) ∧
        (∀ parent link, (parent, link) ∈ meta_parents m →
                        parent ∈ parentEntityClasses objects) ∧
        (∀ i child parent link,
           parentEntityClasses objects !! i = Some child →
           (parent, link) ∈ meta_parents child →
           ∃ j, (j < i)%nat ∧ parentEntityClasses objects !! j = Some parent) ∧
        (linear m → parentEntityClasses objects = reverse (chain m))).
Proof.
  intros first second. unfold second, first.
  rewrite !registerParentEntities_unfold.
  pose proof (register_parents_loop (parentEntityClasses objects)
                (pk <$> entities) w) as H1.
  cbv zeta in H1. destruct H1 as (A1 & A2 & A3 & _ & A5 & A6).
  set (w1 := (for_each _ (register_parents_of table type_policy (pk <$> entities))
                w).2) in *.
  pose proof (register_parents_loop (parentEntityClasses objects)
                (pk <$> again) w1) as H2.
  cbv zeta in H2. destruct H2 as (B1 & B2 & _ & B4 & _).
  split; [done|]. split; [done|].
  split; [|split; [done|split; [|split; [done|split]]]].
  - intros c p Hc Ht Hp Hr.
    destruct (A3 (mname c, p)) as [row Hrow]; [by exists c|].
    exists row. split; [done|]. intros Hwf.
    specialize (A5 Hwf _ _ Hrow). by injection A5.
  - intros k. split; [apply A6|].
    intros [[x Hx]|Hsel]; [|by apply A3].
    exists x. by eapply lookup_weaken.
  - intros Hsub. apply B4. intros k (c & Hc & Hk & Ht & Hp & Hr).
    apply A3. exists c. repeat split; try done. by apply Hsub.
  - intros m Hm.
    destruct (contribute_to_class_order m objects Hm) as (Hown & Hparents & Horder).
    split; [done|]. split; [done|]. split; [done|].
    intros Hlin. by apply (contribute_to_class_linear m objects).
Qed.

End ParentsProperties.

(** C9, as stated, fails: for ancestor classes whose instances answer
    [False] in [canBeRegd], the rows of the primary keys of the given
    entities exist and are fetched, the call returns, and no instance is
    registered for any (ancestor type, pk). *)
Lemma registerParentEntities_skips_ineligible_rows :
  (registerParentEntities demo_table refusing_policy leaf_objects [leaf_1; leaf_2]
     demo_context).1 = Ok tt ∧
  pkRegistry (registerParentEntities demo_table refusing_policy leaf_objects
                [leaf_1; leaf_2] demo_context).2 = ∅ ∧
  parentEntityClasses leaf_objects = [base_model; mid_model] ∧
  demo_table "Base" = [PyInt 1; PyInt 2; PyInt 3] ∧
  pk <$> [leaf_1; leaf_2] = [PyInt 1; PyInt 2].
Proof. repeat split; vm_compute; reflexivity. Qed.

Example leaf_objects_computed :
  mname <$> parentEntityClasses leaf_objects = ["Base"; "Mid"] ∧
  pkAttNames leaf_objects
    = list_to_set ["pk"; "mid_ptr__pk"; "base_ptr__pk"; "id"; "mid_ptr"] ∧
  map_to_list (oneToOneAttNames leaf_objects) = [("owner__pk", owner_field)].
Proof. repeat split; vm_compute; reflexivity. Qed.

Lemma registerParentEntities_duplicate_free_witness :
  parentEntityClasses leaf_objects = [base_model; mid_model] ∧
  pkRegistry (registerParentEntities demo_table demo_policy leaf_objects
                [leaf_1; leaf_2] demo_context).2
    ⊆ pkRegistry
        (registerParentEntities demo_table demo_policy leaf_objects
           [leaf_2; leaf_3]
           (registerParentEntities demo_table demo_policy leaf_objects
              [leaf_1; leaf_2] demo_context).2).2 ∧
  pkRegistry
    (registerParentEntities demo_table demo_policy leaf_objects [leaf_2; leaf_1]
       (registerParentEntities demo_table demo_policy leaf_objects
          [leaf_1; leaf_2] demo_context).2).2
  = pkRegistry (registerParentEntities demo_table demo_policy leaf_objects
                  [leaf_1; leaf_2] demo_context).2 ∧
  ∃ row, pkRegistry (registerParentEntities demo_table demo_policy leaf_objects
                       [leaf_1; leaf_2] demo_context).2 !! ("Base", PyInt 1)
         = Some row.
Proof.
  pose proof (registerParentEntities_duplicate_free demo_table demo_policy
                leaf_objects [leaf_1; leaf_2] [leaf_2; leaf_3] demo_context) as H.
  pose proof (registerParentEntities_duplicate_free demo_table demo_policy
                leaf_objects [leaf_1; leaf_2] [leaf_2; leaf_1] demo_context) as H'.
  cbv zeta in H, H'.
  destruct H as (_ & _ & Hrow & _ & _ & H1 & _ & H2).
  destruct H' as (_ & _ & _ & _ & _ & _ & H3 & _).
  destruct (H2 leaf_model eq_refl) as (_ & _ & _ & Hlin).
  split; [exact (Hlin I)|]. split; [exact H1|]. split.
  - apply H3. intros p Hp. simpl in Hp. simpl.
    apply elem_of_cons in Hp as [->|Hp]; [by right; left|].
    apply elem_of_cons in Hp as [->|Hp]; [by left|].
    by apply elem_of_nil in Hp.
  - destruct (Hrow base_model (PyInt 1)) as (row & Hbound & _).
    + rewrite (Hlin I). simpl. left.
    + vm_compute. left.
    + simpl. left.
    + reflexivity.
    + exists row. exact Hbound.
Defined.

(** * Further properties *)

(** ** The registry as a whole *)

Lemma registry_ok_empty (w : world) : pkRegistry w = ∅ → registry_ok w.
Proof. intros Hw k e. by rewrite Hw, lookup_empty. Qed.

Lemma regd_keeps_registry_ok (entity : option Entity) : keeps registry_ok (regd entity).
Proof.
  intros w Hok. unfold regd. destruct (isRegisterable entity) eqn:Hreg; [|done].
  destruct entity as [e|]; [|done].
  destruct (pkRegistry w !! regkey e) eqn:Hk; [done|]. simpl.
  intros k e' Hl. simpl in Hl.
  destruct (decide (regkey e = k)) as [<-|Hne].
  - rewrite lookup_insert_eq in Hl. by injection Hl as <-.
  - rewrite lookup_insert_ne in Hl by done. by apply Hok.
Qed.

Lemma ejectFromRegistry_keeps_registry_ok (obj : Entity) :
  keeps registry_ok (ejectFromRegistry obj).
Proof.
  intros w Hok. unfold ejectFromRegistry.
  destruct (pkRegistry w !! regkey obj) as [c|]; [|done]. simpl.
  intros k e Hl. simpl in Hl. apply lookup_delete_Some in Hl as [_ Hl].
  by apply Hok.
Qed.

Lemma run_fetch_keeps_registry_ok (f : fetch) : keeps registry_ok (run_fetch f).
Proof.
  destruct f as [entity|rows|name key hook fields]; simpl.
  - apply keeps_bind; [apply regd_keeps_registry_ok|]. intros r. apply keeps_ret.
  - apply keeps_bind.
    + intros w Hw. by rewrite current_state.
    + intros context. unfold RegisteringQuerySet_iterator.
      apply keeps_bind; [apply keeps_ret|]. intros results.
      apply keeps_yield_each. intros x _.
      destruct context; [apply regd_keeps_registry_ok | apply keeps_ret].
  - apply keeps_bind; [|intros r; apply keeps_ret].
    intros w Hok. unfold ContextAwareModelBase__call__, current. simpl.
    destruct (s_instances w) eqn:Hs; simpl; [|done].
    by apply (regd_keeps_registry_ok _ (set_next_oid S w)).
Qed.

Lemma regdLookup_keeps_registry_ok (entityType : string) (key : pyval)
    (fetchFunc : option (M (option Entity))) :
  (∀ fetch, fetchFunc = Some fetch → keeps registry_ok fetch) →
  keeps registry_ok (regdLookup entityType key fetchFunc).
Proof.
  intros Hfetch w Hok. unfold regdLookup.
  destruct (pkRegistry w !! (entityType, key)); [done|].
  destruct fetchFunc as [fetch|]; [|done].
  apply (keeps_bind registry_ok fetch); [by apply Hfetch| |done].
  intros [e|]; [|apply keeps_ret].
  apply keeps_bind; [|intros v; apply regd_keeps_registry_ok].
  unfold read_attr. destruct (attrs e !! "entityType"); [apply keeps_ret|apply keeps_raise].
Qed.

(** Entries of the registry are never mislabelled: starting from an empty
    registry, whatever [regd], [allRegd], the fetch paths, [regdLookup],
    [get], [flushRegistry], [ejectFromRegistry] and the pre-delete handler
    do, every entry holds an instance of the type and primary key it is
    filed under, one that passes the registration test; so a lookup that
    hits returns an instance of the type and key asked for. *)
Theorem registry_entries_match_their_keys :
  (∀ w, pkRegistry w = ∅ → registry_ok w) ∧
  (∀ entity, keeps registry_ok (regd entity)) ∧
  (∀ entities, keeps registry_ok (allRegd entities)) ∧
  (∀ f, keeps registry_ok (run_fetch f)) ∧
  keeps registry_ok flushRegistry ∧
  (∀ obj, keeps registry_ok (ejectFromRegistry obj)) ∧
  (∀ obj, keeps registry_ok (onPreDeleteSignal obj)) ∧
  (∀ entityType key fetchFunc,
     (∀ fetch, fetchFunc = Some fetch → keeps registry_ok fetch) →
     keeps registry_ok (regdLookup entityType key fetchFunc)) ∧
  (∀ self super_get args kw,
     keeps registry_ok (super_get args kw) →
     keeps registry_ok (ContextAwareManager_get self super_get args kw)) ∧
  (∀ w entityType key found w',
     registry_ok w →
     regdLookup entityType key None w = (Ok (Some found), w') →
     cls found = entityType ∧ pk found = key ∧
     isRegisterable (Some found) = true).
Proof.
  split; [|split; [|split; [|split; [|split; [|split; [|split; [|split; [|split]]]]]]]].
  - intros w Hw k e. by rewrite Hw, lookup_empty.
  - apply regd_keeps_registry_ok.
  - intros entities. apply keeps_yield_each. intros x _.
    apply regd_keeps_registry_ok.
  - apply run_fetch_keeps_registry_ok.
  - intros w _ k e. simpl. by rewrite lookup_empty.
  - apply ejectFromRegistry_keeps_registry_ok.
  - intros obj. apply keeps_bind.
    + intros w Hw. by rewrite current_state.
    + intros [|]; [apply ejectFromRegistry_keeps_registry_ok | apply keeps_ret].
  - apply regdLookup_keeps_registry_ok.
  - intros self super_get args kw Hsuper.
    assert (Hquery : keeps registry_ok (e <- super_get args kw ;; ret (Some e))).
    { apply keeps_bind; [done|]. intros e. apply keeps_ret. }
    unfold ContextAwareManager_get. apply keeps_bind.
    { intros w Hw. by rewrite current_state. }
    intros context. destruct (context && (length kw =? 1)%nat); [|done].
    destruct kw as [|[k v] kw]; [done|].
    destruct (isinstance_UUID v && _).
    { apply regdLookup_keeps_registry_ok. by intros fetch [= <-]. }
    destruct (oneToOneAttNames self !! strip_exact k) as [field|]; [|done].
    intros w Hw.
    destruct (scan_one_to_one field v _); [done|]. by apply Hquery.
  - intros w entityType key found w' Hok Hl. unfold regdLookup in Hl.
    destruct (pkRegistry w !! (entityType, key)) as [c|] eqn:Hk; [|done].
    injection Hl as <- <-. destruct (Hok _ _ Hk) as [Hkey Hreg].
    by injection Hkey as -> ->.
Qed.

Lemma registry_entries_match_their_keys_witness :
  registry_ok context_with_A ∧
  cls order_A = "Order" ∧ pk order_A = PyInt 42.
Proof.
  destruct registry_entries_match_their_keys
    as (Hempty & Hregd & _ & _ & _ & _ & _ & _ & _ & Hhit).
  assert (Hok : registry_ok context_with_A).
  { apply (Hregd (Some order_A) empty_context). by apply Hempty. }
  destruct (Hhit context_with_A "Order" (PyInt 42) order_A context_with_A Hok eq_refl)
    as (H1 & H2 & _).
  exact (conj Hok (conj H1 H2)).
Defined.

(** [regd] is idempotent: on a registry whose entries match their keys,
    registering what [regd] returned returns the same object again and
    changes nothing. *)
Theorem regd_idempotent (entity r : option Entity) (w w1 : world) :
  registry_ok w →
  regd entity w = (Ok r, w1) →
  regd r w1 = (Ok r, w1).
Proof.
  intros Hok Hregd.
  destruct (isRegisterable entity) eqn:Hreg.
  - destruct entity as [e|]; [|done].
    destruct (pkRegistry w !! regkey e) as [c|] eqn:Hk.
    + rewrite (regd_cached e c w Hreg Hk) in Hregd. injection Hregd as <- <-.
      destruct (Hok _ _ Hk) as [Hkey Hc].
      apply regd_cached; [done|]. by rewrite Hkey.
    + rewrite (regd_stored e w Hreg Hk) in Hregd. injection Hregd as <- <-.
      apply regd_cached; [done|]. simpl. apply lookup_insert_eq.
  - rewrite (regd_not_registerable entity w Hreg) in Hregd.
    injection Hregd as <- <-. by apply regd_not_registerable.
Qed.

Lemma regd_idempotent_witness :
  regd (Some order_A) context_with_A = (Ok (Some order_A), context_with_A).
Proof.
  apply (regd_idempotent (Some order_D) (Some order_A) context_with_A context_with_A).
  - apply (regd_keeps_registry_ok (Some order_A) empty_context).
    by apply registry_ok_empty.
  - reflexivity.
Defined.

Lemma regd_result_later (entity r : option Entity) (w w1 : world)
    (later : gmap (string * pyval) Entity) :
  regd entity w = (Ok r, w1) →
  pkRegistry w1 ⊆ later →
  r = if isRegisterable entity
      then entity ≫= λ e, later !! regkey e
      else entity.
Proof.
  intros Hregd Hsub. destruct (isRegisterable entity) eqn:Hreg.
  - destruct entity as [e|]; [|done]. simpl.
    destruct (pkRegistry w !! regkey e) as [c|] eqn:Hk.
    + rewrite (regd_cached e c w Hreg Hk) in Hregd. injection Hregd as <- <-.
      symmetry. by eapply lookup_weaken.
    + rewrite (regd_stored e w Hreg Hk) in Hregd. injection Hregd as <- <-.
      symmetry. eapply lookup_weaken; [|exact Hsub]. simpl. apply lookup_insert_eq.
  - rewrite (regd_not_registerable entity w Hreg) in Hregd. by injection Hregd as <- <-.
Qed.

Lemma allRegd_cons (x : option Entity) (xs : list (option Entity)) (w : world) :
  allRegd (x :: xs) w =
  match regd x w with
  | (Ok r, w1) => match allRegd xs w1 with
                  | (Ok rs, w2) => (Ok (r :: rs), w2)
                  | (Raise e, w2) => (Raise e, w2)
                  end
  | (Raise e, w1) => (Raise e, w1)
  end.
Proof. reflexivity. Qed.

(** What [allRegd] yields is read off the registry it leaves: every entity
    that passes the registration test is replaced by the instance bound to
    its key in the final registry, every other entity is passed through as
    it is, in the order given; the call never raises and the registry it
    leaves contains the one it found. *)
Theorem allRegd_yields_the_registered_instances
    (entities : list (option Entity)) (w : world) :
  let w' := (allRegd entities w).2 in
  (allRegd entities w).1 =
    Ok ((λ entity, if isRegisterable entity
                   then entity ≫= λ e, pkRegistry w' !! regkey e
                   else entity) <$> entities) ∧
  pkRegistry w ⊆ pkRegistry w'.
Proof.
  simpl. revert w. induction entities as [|x xs IH]; intros w; [done|].
  rewrite allRegd_cons.
  destruct (regd_never_raises x w) as [r Hr].
  pose proof (regd_registry_grows x w) as Hgrow.
  destruct (regd x w) as [res w1] eqn:Hregd. simpl in Hr, Hgrow. subst res.
  destruct (IH w1) as [IH1 IH2].
  destruct (allRegd xs w1) as [res w2]. simpl in IH1, IH2. subst res.
  simpl. split; [|by trans (pkRegistry w1)].
  f_equal. f_equal. by eapply regd_result_later.
Qed.

Lemma omap_keys_NoDup (entityType : string) (l : list (string * pyval * Entity)) :
  NoDup l.*1 →
  NoDup (omap (λ '((t, k), obj), if decide (t = entityType) then Some (k, obj) else None)
              l).*1.
Proof.
  induction l as [|[[t k] obj] l IH]; simpl; intros Hnd; [constructor|].
  apply NoDup_cons in Hnd as [Hnotin Hnd].
  destruct (decide (t = entityType)) as [->|Hne]; simpl; [|by apply IH].
  apply NoDup_cons. split; [|by apply IH].
  intros Hin. apply Hnotin.
  apply list_elem_of_fmap in Hin as ([k' obj'] & Hk & Hin). simpl in Hk. subst k'.
  apply list_elem_of_omap in Hin as ([[t' k'] o'] & Hin & Hf).
  destruct (decide (t' = entityType)) as [->|]; [|done].
  injection Hf as -> ->.
  apply list_elem_of_fmap. by exists ((entityType, k), obj').
Qed.

Lemma omap_length_le {A B} (f : A → option B) (l : list A) :
  (length (omap f l) ≤ length l)%nat.
Proof.
  induction l as [|x l IH]; csimpl; [lia|].
  destruct (f x); simpl; lia.
Qed.

(** [registeredEntities] yields every entry registered for the type once:
    the primary keys it yields are pairwise distinct, a pair is yielded
    exactly when the registry binds the type and that key to that instance,
    and no more pairs are yielded than the registry has entries. *)
Theorem registeredEntities_yields_each_entry_once (entityType : string) (w : world) :
  NoDup (registeredEntities entityType w).*1 ∧
  (∀ p obj, (p, obj) ∈ registeredEntities entityType w ↔
            pkRegistry w !! (entityType, p) = Some obj) ∧
  (length (registeredEntities entityType w) ≤ size (pkRegistry w))%nat.
Proof.
  split; [|split].
  - apply omap_keys_NoDup, NoDup_fst_map_to_list.
  - apply registeredEntities_spec.
  - unfold registeredEntities. rewrite <- length_map_to_list. apply omap_length_le.
Qed.

(** After [flushRegistry] nothing is registered for any type, a lookup
    misses, and the next instance that passes the registration test is
    stored and returned by [regd] as it is, whatever was registered under
    its key before; the savepoint stack, the pending writes and the calls
    made to the persistence layer are not touched. *)
Theorem flushRegistry_forgets_every_instance (w : world) :
  let w1 := (flushRegistry w).2 in
  (flushRegistry w).1 = Ok tt ∧
  (∀ entityType, registeredEntities entityType w1 = []) ∧
  (∀ entityType key, regdLookup entityType key None w1 = (Ok None, w1)) ∧
  (∀ e, isRegisterable (Some e) = true →
        (regd (Some e) w1).1 = Ok (Some e) ∧
        pkRegistry (regd (Some e) w1).2 = {[ regkey e := e ]}) ∧
  savepoints w1 = savepoints w ∧ queuedSaves w1 = queuedSaves w ∧
  tx_log w1 = tx_log w ∧ s_instances w1 = s_instances w.
Proof.
  simpl. split; [done|]. split; [|split; [|split; [|done]]].
  - intros entityType. unfold registeredEntities. simpl. by rewrite map_to_list_empty.
  - intros entityType key. unfold regdLookup. simpl. by rewrite lookup_empty.
  - intros e He. rewrite (regd_stored e _ He) by (simpl; apply lookup_empty).
    simpl. split; [done|]. apply insert_empty.
Qed.

(** Registering an instance under a free key and ejecting it again leaves
    the context exactly as it was; ejecting once more changes nothing. *)
Theorem regd_then_eject_round_trip (e : Entity) (w : world) :
  isRegisterable (Some e) = true →
  pkRegistry w !! regkey e = None →
  let w1 := (regd (Some e) w).2 in
  ejectFromRegistry e w1 = (Ok tt, w) ∧
  ejectFromRegistry e w = (Ok tt, w).
Proof.
  intros He Hfree. simpl. rewrite (regd_stored e w He Hfree). simpl.
  unfold ejectFromRegistry. simpl. rewrite lookup_insert_eq, Hfree.
  split; [|done]. f_equal. destruct w as [reg sps q inst log oid].
  unfold set_pkRegistry. simpl in *. f_equal. by apply delete_insert_id.
Qed.

Lemma regd_then_eject_round_trip_witness :
  ejectFromRegistry order_A context_with_A = (Ok tt, empty_context) ∧
  ejectFromRegistry order_A empty_context = (Ok tt, empty_context).
Proof. apply (regd_then_eject_round_trip order_A empty_context); reflexivity. Defined.

(** Eviction goes by key, not by object: after [ejectFromRegistry] of any
    instance of a type and primary key, the next instance of that type and
    key that passes the registration test is the one [regd] stores and
    returns, and later lookups of the key return it. *)
Theorem regd_after_eject_takes_the_key (obj fresh : Entity) (w : world) :
  regkey fresh = regkey obj →
  isRegisterable (Some fresh) = true →
  let w1 := (ejectFromRegistry obj w).2 in
  let w2 := (regd (Some fresh) w1).2 in
  regd (Some fresh) w1 = (Ok (Some fresh), w2) ∧
  pkRegistry w2 = <[ regkey obj := fresh ]> (pkRegistry w) ∧
  ∀ fetchFunc, regdLookup (cls obj) (pk obj) fetchFunc w2 = (Ok (Some fresh), w2).
Proof.
  intros Hkey Hfresh. simpl.
  assert (Hgone : pkRegistry (ejectFromRegistry obj w).2 !! regkey fresh = None).
  { rewrite Hkey. unfold ejectFromRegistry.
    destruct (pkRegistry w !! regkey obj) as [c|] eqn:Hk; simpl; [|done].
    apply lookup_delete_eq. }
  rewrite (regd_stored fresh _ Hfresh Hgone). simpl.
  split; [done|]. split.
  - rewrite Hkey. unfold ejectFromRegistry.
    destruct (pkRegistry w !! regkey obj) as [c|] eqn:Hk; simpl; [|done].
    apply insert_delete_eq.
  - intros fetchFunc. unfold regdLookup. simpl.
    change (cls obj, pk obj) with (regkey obj). rewrite <- Hkey.
    by rewrite lookup_insert_eq.
Qed.

Lemma regd_after_eject_takes_the_key_witness :
  regd (Some order_D) (ejectFromRegistry order_C context_with_A).2
    = (Ok (Some order_D),
       (regd (Some order_D) (ejectFromRegistry order_C context_with_A).2).2) ∧
  pkRegistry (regd (Some order_D) (ejectFromRegistry order_C context_with_A).2).2
    = <[ regkey order_C := order_D ]> (pkRegistry context_with_A).
Proof.
  destruct (regd_after_eject_takes_the_key order_C order_D context_with_A
              eq_refl eq_refl) as (H1 & H2 & _).
  exact (conj H1 H2).
Defined.

(** A lookup that misses and fetches an instance of the key asked for
    memoises it, provided the instance carries the [entityType] attribute
    the log call reads and passes the registration test: the instance
    returned is bound to the key afterwards, and every later lookup of the
    key returns that same instance without calling its fetch function.  For
    a fetched instance without that attribute the lookup raises an
    [AttributeError] after the fetch has run and registers nothing. *)
Theorem regdLookup_memoises_the_fetch (entityType : string) (key : pyval)
    (fetch : M (option Entity)) (fetched : Entity) (w w1 : world) :
  pkRegistry w !! (entityType, key) = None →
  fetch w = (Ok (Some fetched), w1) →
  (is_Some (attrs fetched !! "entityType") →
   isRegisterable (Some fetched) = true →
   regkey fetched = (entityType, key) →
   ∃ r w2,
     regdLookup entityType key (Some fetch) w = (Ok (Some r), w2) ∧
     pkRegistry w2 !! (entityType, key) = Some r ∧
     (pkRegistry w1 !! (entityType, key) = None → r = fetched) ∧
     ∀ fetchFunc, regdLookup entityType key fetchFunc w2 = (Ok (Some r), w2)) ∧
  (attrs fetched !! "entityType" = None →
   regdLookup entityType key (Some fetch) w = (Raise (NoAttribute "entityType"), w1)).
Proof.
  intros Hmiss Hfetch. split.
  - intros Hattr Hreg Hkey.
    assert (Hl : regdLookup entityType key (Some fetch) w = regd (Some fetched) w1).
    { by apply regdLookup_fetched. }
    rewrite Hl. destruct (pkRegistry w1 !! regkey fetched) as [c|] eqn:Hc.
    + exists c, w1. rewrite (regd_cached fetched c w1 Hreg Hc).
      rewrite Hkey in Hc. split; [done|]. split; [done|]. split.
      * intros Hnone. by rewrite Hnone in Hc.
      * intros fetchFunc. unfold regdLookup. by rewrite Hc.
    + exists fetched, (set_pkRegistry (insert (regkey fetched) fetched) w1).
      rewrite (regd_stored fetched w1 Hreg Hc).
      assert (Hnow : pkRegistry (set_pkRegistry (insert (regkey fetched) fetched) w1)
                       !! (entityType, key) = Some fetched).
      { simpl. rewrite Hkey. apply lookup_insert_eq. }
      split; [done|]. split; [done|]. split; [done|].
      intros fetchFunc. unfold regdLookup. by rewrite Hnow.
  - intros Hattr. by apply (regdLookup_fetched_without_entityType _ _ _ fetched).
Qed.

Lemma regdLookup_memoises_the_fetch_witness :
  (∃ r w2,
     regdLookup "Order" (PyInt 42) (Some (ret (Some order_E))) empty_context
       = (Ok (Some r), w2) ∧
     pkRegistry w2 !! ("Order", PyInt 42) = Some r ∧
     (pkRegistry empty_context !! ("Order", PyInt 42) = None → r = order_E) ∧
     ∀ fetchFunc, regdLookup "Order" (PyInt 42) fetchFunc w2 = (Ok (Some r), w2)) ∧
  regdLookup "Order" (PyInt 42) (Some (ret (Some order_A))) empty_context
    = (Raise (NoAttribute "entityType"), empty_context).
Proof.
  split.
  - destruct (regdLookup_memoises_the_fetch "Order" (PyInt 42) (ret (Some order_E))
                order_E empty_context empty_context eq_refl eq_refl) as [H _].
    exact (H (ex_intro _ (PyStr "Order") eq_refl) eq_refl eq_refl).
  - destruct (regdLookup_memoises_the_fetch "Order" (PyInt 42) (ret (Some order_A))
                order_A empty_context empty_context eq_refl eq_refl) as [_ H].
    exact (H eq_refl).
Defined.

(** ** Construction and [save] *)

(** Outside a context the metaclass never raises and never touches a
    registry: every construction returns its new instance, so two
    constructions for the same type and primary key give two different
    objects. *)
Theorem construction_outside_a_context (name : string) (key : pyval) (hook : policy)
    (fields : gmap string pyval) (w : world) :
  s_instances w = false →
  let first := mkEntity (next_oid w) name key hook fields in
  let second := mkEntity (S (next_oid w)) name key hook fields in
  let w1 := set_next_oid S w in
  let w2 := set_next_oid S w1 in
  ContextAwareModelBase__call__ name key hook fields w = (Ok (Some first), w1) ∧
  ContextAwareModelBase__call__ name key hook fields w1 = (Ok (Some second), w2) ∧
  oid first ≠ oid second ∧
  pkRegistry w2 = pkRegistry w.
Proof.
  intros Hs. simpl. unfold ContextAwareModelBase__call__, current. simpl.
  rewrite Hs. simpl. split; [done|]. split; [done|]. split; [lia|done].
Qed.

Lemma construction_outside_a_context_witness :
  ContextAwareModelBase__call__ "Order" (PyInt 42) ModelHook ∅
      (World ∅ [] [] false [] 0)
    = (Ok (Some (mkEntity 0 "Order" (PyInt 42) ModelHook ∅)), World ∅ [] [] false [] 1) ∧
  ContextAwareModelBase__call__ "Order" (PyInt 42) ModelHook ∅
      (World ∅ [] [] false [] 1)
    = (Ok (Some (mkEntity 1 "Order" (PyInt 42) ModelHook ∅)), World ∅ [] [] false [] 2).
Proof.
  destruct (construction_outside_a_context "Order" (PyInt 42) ModelHook ∅
              (World ∅ [] [] false [] 0) eq_refl) as (H1 & H2 & _).
  exact (conj H1 H2).
Defined.

Lemma construction_in_context (name : string) (key : pyval) (hook : policy)
    (fields : gmap string pyval) (w : world) :
  s_instances w = true →
  ContextAwareModelBase__call__ name key hook fields w
    = regd (Some (mkEntity (next_oid w) name key hook fields)) (set_next_oid S w).
Proof. intros Hs. unfold ContextAwareModelBase__call__, current. simpl. by rewrite Hs. Qed.

(** Inside a context whose registry entries match their keys, a
    construction never raises and returns an instance of the type and
    primary key asked for: the new instance, or the instance the registry
    held under that key before, whose field values are then the ones it
    already had and not the ones passed.  When the new instance passes the
    registration test the instance returned is the one registered under the
    key afterwards. *)
Theorem construction_in_a_context (name : string) (key : pyval) (hook : policy)
    (fields : gmap string pyval) (w : world) :
  s_instances w = true →
  registry_ok w →
  let newborn := mkEntity (next_oid w) name key hook fields in
  ∃ r w',
    ContextAwareModelBase__call__ name key hook fields w = (Ok (Some r), w') ∧
    cls r = name ∧ pk r = key ∧
    (r = newborn ∨ pkRegistry w !! (name, key) = Some r) ∧
    (isRegisterable (Some newborn) = true → pkRegistry w' !! (name, key) = Some r) ∧
    (isRegisterable (Some newborn) = false → r = newborn ∧ pkRegistry w' = pkRegistry w) ∧
    next_oid w' = S (next_oid w).
Proof.
  intros Hs Hok newborn. rewrite (construction_in_context _ _ _ _ _ Hs). fold newborn.
  destruct (isRegisterable (Some newborn)) eqn:Hreg.
  - destruct (pkRegistry w !! (name, key)) as [c|] eqn:Hk.
    + exists c, (set_next_oid S w).
      rewrite (regd_cached newborn c (set_next_oid S w) Hreg Hk).
      destruct (Hok _ _ Hk) as [Hkey _]. injection Hkey as Hc Hp.
      split; [reflexivity|]. split; [exact Hc|]. split; [exact Hp|].
      split; [by right|]. split; [by intros _|]. split; [by intros [=]|].
      reflexivity.
    + exists newborn, (set_pkRegistry (insert (regkey newborn) newborn) (set_next_oid S w)).
      rewrite (regd_stored newborn (set_next_oid S w) Hreg Hk).
      split; [reflexivity|]. split; [reflexivity|]. split; [reflexivity|].
      split; [by left|]. split; [intros _; simpl; apply lookup_insert_eq|].
      split; [by intros [=]|]. reflexivity.
  - exists newborn, (set_next_oid S w).
    rewrite (regd_not_registerable (Some newborn) (set_next_oid S w) Hreg).
    split; [reflexivity|]. split; [reflexivity|]. split; [reflexivity|].
    split; [by left|]. split; [by intros [=]|]. split; [by intros _|]. reflexivity.
Qed.

Lemma construction_in_a_context_witness :
  ∃ r w',
    ContextAwareModelBase__call__ "Order" (PyInt 42) ModelHook {[ "total" := PyInt 7 ]}
        context_with_A = (Ok (Some r), w') ∧
    cls r = "Order" ∧ pk r = PyInt 42 ∧
    (r = mkEntity 4 "Order" (PyInt 42) ModelHook {[ "total" := PyInt 7 ]} ∨
     pkRegistry context_with_A !! ("Order", PyInt 42) = Some r).
Proof.
  destruct (construction_in_a_context "Order" (PyInt 42) ModelHook
              {[ "total" := PyInt 7 ]} context_with_A eq_refl) as (r & w' & H1 & H2 & H3 & H4 & _).
  - apply (regd_keeps_registry_ok (Some order_A) empty_context).
    by apply registry_ok_empty.
  - exists r, w'. exact (conj H1 (conj H2 (conj H3 H4))).
Defined.

(** [save] registers the instance as [Model.save] left it: when the
    underlying save returns in a context and the saved instance passes the
    registration test, its key is bound afterwards, to the instance itself
    if the key was free and otherwise to the instance that held it, which
    [save] does not displace.  [save] returns what the underlying save
    returned; outside a context, or for an instance that fails the test,
    it changes nothing more; and when the underlying save raises, the
    exception passes through and nothing is registered. *)
Theorem save_registers_the_saved_instance (self : Entity)
    (super_save : Entity → M (Entity * pyval)) (w : world) :
  (∀ saved r w1,
     super_save self w = (Ok (saved, r), w1) →
     s_instances w1 = true →
     isRegisterable (Some saved) = true →
     ∃ w2,
       ContextAwareModel_save self super_save w = (Ok (saved, r), w2) ∧
       pkRegistry w2 !! regkey saved
         = Some (default saved (pkRegistry w1 !! regkey saved)) ∧
       pkRegistry w1 ⊆ pkRegistry w2 ∧
       tx_log w2 = tx_log w1 ∧ savepoints w2 = savepoints w1 ∧
       queuedSaves w2 = queuedSaves w1) ∧
  (∀ saved r w1,
     super_save self w = (Ok (saved, r), w1) →
     s_instances w1 = false ∨ isRegisterable (Some saved) = false →
     ContextAwareModel_save self super_save w = (Ok (saved, r), w1)) ∧
  (∀ e w1,
     super_save self w = (Raise e, w1) →
     ContextAwareModel_save self super_save w = (Raise e, w1)).
Proof.
  split; [|split].
  - intros saved r w1 Hsuper Hs Hreg.
    unfold ContextAwareModel_save, bind. rewrite Hsuper.
    unfold current. rewrite Hs. simpl.
    destruct (pkRegistry w1 !! regkey saved) as [c|] eqn:Hk.
    + exists w1. rewrite (regd_cached saved c w1 Hreg Hk). simpl.
      by rewrite Hk.
    + exists (set_pkRegistry (insert (regkey saved) saved) w1).
      rewrite (regd_stored saved w1 Hreg Hk). simpl.
      split; [done|]. split; [apply lookup_insert_eq|].
      split; [by apply insert_subseteq|done].
  - intros saved r w1 Hsuper [Hs|Hreg];
      unfold ContextAwareModel_save, bind; rewrite Hsuper; unfold current.
    + by rewrite Hs.
    + destruct (s_instances w1); [|done]. simpl.
      by rewrite (regd_not_registerable (Some saved) w1 Hreg).
  - intros e w1 Hsuper. unfold ContextAwareModel_save, bind. by rewrite Hsuper.
Qed.

Lemma save_registers_the_saved_instance_witness :
  ∃ w2,
    ContextAwareModel_save order_unsaved insert_row empty_context
      = (Ok (mkEntity 6 "Order" (PyInt 42) ModelHook ∅, PyNone), w2) ∧
    pkRegistry w2 !! ("Order", PyInt 42)
      = Some (mkEntity 6 "Order" (PyInt 42) ModelHook ∅) ∧
    isRegisterable (Some order_unsaved) = false.
Proof.
  destruct (save_registers_the_saved_instance order_unsaved insert_row empty_context)
    as (Hreg & _ & _).
  destruct (Hreg (mkEntity 6 "Order" (PyInt 42) ModelHook ∅) PyNone
              (set_tx_log (λ log, log ++ [CWrite 1]) empty_context)
              eq_refl eq_refl eq_refl) as (w2 & H1 & H2 & _).
  exists w2. exact (conj H1 (conj H2 eq_refl)).
Defined.

(** ** Unwinding the savepoint stack *)

Lemma for_each_cons {A} (x : A) (xs : list A) (body : A → M unit) (w : world) :
  for_each (x :: xs) body w =
  match body x w with
  | (Ok _, w1) => for_each xs body w1
  | (Raise e, w1) => (Raise e, w1)
  end.
Proof. reflexivity. Qed.

Lemma unwind_ok (pop : handle → M unit) :
  (∀ h w, last (savepoints w) = Some h →
          (pop h w).1 = Ok tt ∧ savepoints (pop h w).2 = removelast (savepoints w)) →
  ∀ s base w, savepoints w = base ++ s →
    (for_each (reverse s) pop w).1 = Ok tt ∧
    savepoints (for_each (reverse s) pop w).2 = base.
Proof.
  intros Hpop s. induction s as [|h s IH] using rev_ind; intros base w Hw.
  - simpl. by rewrite Hw, app_nil_r.
  - rewrite reverse_snoc, for_each_cons.
    assert (Htop : last (savepoints w) = Some h).
    { rewrite Hw, app_assoc. apply last_snoc. }
    destruct (Hpop h w Htop) as [Hres Hstack].
    destruct (pop h w) as [res w1]. simpl in Hres, Hstack. subst res.
    apply IH. rewrite Hstack, Hw, app_assoc. apply removelast_snoc.
Qed.

Section Unwinding.

Variable db : Persistence.

Lemma rollback_pops_on_top (h : handle) (w : world) :
  last (savepoints w) = Some h →
  rollbackSavepoint db h w =
    match tx_raises db (tx_log w) (CSavepointRollback h) with
    | Some e => (Raise e, set_tx_log (λ l, l ++ [CSavepointRollback h]) (aborted w))
    | None => (Ok tt, set_savepoints (@removelast handle)
                        (set_tx_log (λ l, l ++ [CSavepointRollback h]) (aborted w)))
    end.
Proof.
  intros Htop. rewrite rollbackSavepoint_eq. simpl.
  apply is_top_true in Htop. by rewrite Htop.
Qed.

Lemma commit_pops_on_top (h : handle) (w : world) :
  last (savepoints w) = Some h →
  commitSavepoint db h w =
    match tx_raises db (tx_log (fired w)) (CSavepointCommit h) with
    | Some e => (Raise e, set_tx_log (λ l, l ++ [CSavepointCommit h]) (fired w))
    | None => (Ok tt, set_savepoints (@removelast handle)
                        (set_tx_log (λ l, l ++ [CSavepointCommit h]) (fired w)))
    end.
Proof.
  intros Htop. rewrite commitSavepoint_eq. simpl.
  apply is_top_true in Htop. by rewrite Htop.
Qed.

Lemma rollback_all (s : list handle) (w : world) :
  savepoints w = s →
  let out := for_each (reverse s) (rollbackSavepoint db) w in
  (out.1 = Ok tt ∨
   ∃ e log h, out.1 = Raise e ∧ h ∈ s ∧
              tx_raises db log (CSavepointRollback h) = Some e) ∧
  savepoints out.2 `prefix_of` s ∧
  (out.1 = Ok tt → savepoints out.2 = []) ∧
  writes_of (tx_log out.2) = writes_of (tx_log w) ∧
  pkRegistry out.2 = pkRegistry w ∧
  (s ≠ [] ∨ queuedSaves w = [] → queuedSaves out.2 = []) ∧
  (never_raises db →
   out.1 = Ok tt ∧
   tx_log out.2 = tx_log w ++ (CSavepointRollback <$> reverse s)).
Proof.
  revert w. induction s as [|h s IH] using rev_ind; intros w Hw; simpl.
  - rewrite Hw, app_nil_r. split; [by left|]. split; [done|]. split; [done|].
    split; [done|]. split; [done|]. split; [by intros [?|?]|done].
  - rewrite reverse_snoc, for_each_cons.
    assert (Htop : last (savepoints w) = Some h) by (rewrite Hw; apply last_snoc).
    rewrite (rollback_pops_on_top h w Htop).
    destruct (tx_raises db (tx_log w) (CSavepointRollback h)) as [e|] eqn:Hraise.
    + simpl. split.
      { right. exists e, (tx_log w), h. split; [done|]. split; [|done].
        apply elem_of_app. right. by left. }
      split; [by rewrite Hw|]. split; [done|].
      split; [rewrite writes_of_app; simpl; apply app_nil_r|].
      split; [done|]. split; [done|].
      intros Hnever. by rewrite Hnever in Hraise.
    + set (w1 := set_savepoints (@removelast handle)
                   (set_tx_log (λ l, l ++ [CSavepointRollback h]) (aborted w))).
      assert (Hw1 : savepoints w1 = s) by (simpl; rewrite Hw; apply removelast_snoc).
      destruct (IH w1 Hw1) as (Hres & Hpre & Hempty & Hwrites & Hreg & Hq & Hquiet).
      split.
      { destruct Hres as [Hres|(e & log & h' & Hres & Hin & Hr)]; [by left|].
        right. exists e, log, h'. split; [done|]. split; [|done].
        apply elem_of_app. by left. }
      split; [by apply prefix_app_r|]. split; [done|].
      split.
      { rewrite Hwrites. simpl. rewrite writes_of_app. simpl. apply app_nil_r. }
      split; [done|]. split; [intros _; apply Hq; by right|].
      intros Hnever. destruct (Hquiet Hnever) as [Hok Hlog].
      split; [done|]. rewrite Hlog. simpl. by rewrite <- app_assoc.
Qed.

(** [__del__] with savepoints left first logs, reading [self.account.name].
    On a context without an [account] attribute, which [ContextManager]
    itself never sets, or with an account without a [name], that read raises
    an [AttributeError] before any rollback: the stack, the pending writes
    and the calls made are as they were.  With an account that has a name it
    rolls the savepoints back from the top of the stack down: it never fails
    the stack check, so it returns or raises what the persistence layer
    raised on one of the rollbacks; the savepoints left are then a prefix of
    the stack, none when it returns.  It executes no pending write and drops
    them all, and when no call raises it issues one rollback per savepoint,
    top first.  With an empty stack it does nothing, whatever the account. *)
Theorem del_rolls_back_the_savepoints_left (self_account : option Entity) (w : world) :
  let out := ContextManager__del__ db self_account w in
  (savepoints w = [] → out = (Ok tt, w)) ∧
  (savepoints w ≠ [] → self_account = None →
   out = (Raise (NoAttribute "account"), w)) ∧
  (savepoints w ≠ [] →
   ∀ account, self_account = Some account → attrs account !! "name" = None →
   out = (Raise (NoAttribute "name"), w)) ∧
  (∀ account, self_account = Some account → is_Some (attrs account !! "name") →
   (out.1 = Ok tt ∨
    ∃ e log h, out.1 = Raise e ∧ h ∈ savepoints w ∧
               tx_raises db log (CSavepointRollback h) = Some e) ∧
   savepoints out.2 `prefix_of` savepoints w ∧
   (out.1 = Ok tt → savepoints out.2 = []) ∧
   writes_of (tx_log out.2) = writes_of (tx_log w) ∧
   pkRegistry out.2 = pkRegistry w ∧
   (savepoints w ≠ [] → queuedSaves out.2 = []) ∧
   (never_raises db →
    out.1 = Ok tt ∧
    tx_log out.2 = tx_log w ++ (CSavepointRollback <$> reverse (savepoints w)))).
Proof.
  cbv zeta. unfold ContextManager__del__.
  destruct (bool_decide (savepoints w = [])) eqn:Hempty.
  - apply bool_decide_eq_true in Hempty.
    split; [done|]. split; [done|]. split; [done|].
    intros account _ _.
    split; [by left|]. split; [done|]. split; [done|].
    split; [done|]. split; [done|]. split; [done|].
    intros _. rewrite Hempty. simpl. by rewrite app_nil_r.
  - apply bool_decide_eq_false in Hempty.
    split; [done|]. split; [by intros _ ->|]. split.
    + intros _ account -> Hname. unfold bind, read_attr. by rewrite Hname.
    + intros account -> [name Hname].
      assert (Hrun : (read_attr account "name" ;;
                      for_each (reverse (savepoints w)) (rollbackSavepoint db)) w
                     = for_each (reverse (savepoints w)) (rollbackSavepoint db) w).
      { unfold bind, read_attr. by rewrite Hname. }
      rewrite Hrun.
      destruct (rollback_all (savepoints w) w eq_refl)
        as (H1 & H2 & H3 & H4 & H5 & H6 & H7).
      split; [done|]. split; [done|]. split; [done|].
      split; [done|]. split; [done|]. split; [|done].
      intros _. apply H6. by left.
Qed.

(** Savepoints unwind last in, first out: after any number of pushes, in a
    persistence layer in which no call raises, committing the identifiers
    returned in the reverse of the order of the pushes passes the stack
    check every time and leaves the stack as it was before the first push,
    and so does rolling them back. *)
Theorem savepoints_unwind_in_reverse_order (pushes : nat) (w : world) :
  never_raises db →
  ∃ sps w1,
    yield_each (replicate pushes tt) (λ _, pushSavepoint db) w = (Ok sps, w1) ∧
    length sps = pushes ∧
    savepoints w1 = savepoints w ++ sps ∧
    (for_each (reverse sps) (commitSavepoint db) w1).1 = Ok tt ∧
    savepoints (for_each (reverse sps) (commitSavepoint db) w1).2 = savepoints w ∧
    (for_each (reverse sps) (rollbackSavepoint db) w1).1 = Ok tt ∧
    savepoints (for_each (reverse sps) (rollbackSavepoint db) w1).2 = savepoints w.
Proof.
  intros Hnever.
  assert (Hpush : ∃ sps w1,
    yield_each (replicate pushes tt) (λ _, pushSavepoint db) w = (Ok sps, w1) ∧
    length sps = pushes ∧ savepoints w1 = savepoints w ++ sps).
  { revert w. induction pushes as [|n IH]; intros w.
    - exists [], w. simpl. by rewrite app_nil_r.
    - simpl. unfold bind at 1. rewrite pushSavepoint_eq. simpl. rewrite Hnever.
      set (sp := sp_fresh db _). set (w0 := set_savepoints _ _).
      destruct (IH w0) as (sps & w1 & Hrun & Hlen & Hstack).
      exists (sp :: sps), w1. unfold bind. rewrite Hrun. simpl.
      split; [done|]. split; [by rewrite Hlen|].
      rewrite Hstack. simpl. by rewrite <- app_assoc. }
  destruct Hpush as (sps & w1 & Hrun & Hlen & Hstack).
  exists sps, w1. split; [done|]. split; [done|]. split; [done|].
  assert (Hcommit : ∀ h w', last (savepoints w') = Some h →
            (commitSavepoint db h w').1 = Ok tt ∧
            savepoints (commitSavepoint db h w').2 = removelast (savepoints w')).
  { intros h w' Htop. rewrite (commit_pops_on_top h w' Htop). by rewrite Hnever. }
  assert (Hrollback : ∀ h w', last (savepoints w') = Some h →
            (rollbackSavepoint db h w').1 = Ok tt ∧
            savepoints (rollbackSavepoint db h w').2 = removelast (savepoints w')).
  { intros h w' Htop. rewrite (rollback_pops_on_top h w' Htop). by rewrite Hnever. }
  destruct (unwind_ok _ Hcommit sps (savepoints w) w1 Hstack) as [? ?].
  destruct (unwind_ok _ Hrollback sps (savepoints w) w1 Hstack) as [? ?].
  done.
Qed.

End Unwinding.

Lemma del_rolls_back_the_savepoints_left_witness :
  ContextManager__del__ quiet_db None three_deep
    = (Raise (NoAttribute "account"), three_deep) ∧
  (ContextManager__del__ quiet_db (Some account_A) three_deep).1 = Ok tt ∧
  savepoints (ContextManager__del__ quiet_db (Some account_A) three_deep).2 = [] ∧
  queuedSaves (ContextManager__del__ quiet_db (Some account_A) three_deep).2 = [] ∧
  tx_log (ContextManager__del__ quiet_db (Some account_A) three_deep).2
    = [CSavepointRollback "s3"; CSavepointRollback "s2"; CSavepointRollback "s1"].
Proof.
  destruct (del_rolls_back_the_savepoints_left quiet_db None three_deep)
    as (_ & Hnone & _).
  destruct (del_rolls_back_the_savepoints_left quiet_db (Some account_A) three_deep)
    as (_ & _ & _ & Hsome).
  destruct (Hsome account_A eq_refl (ex_intro _ (PyStr "acme") eq_refl))
    as (_ & _ & Hempty & _ & _ & Hqueue & Hquiet).
  destruct (Hquiet quiet_db_never_raises) as [Hok Hlog].
  split; [apply Hnone; [intros H; discriminate H|reflexivity]|].
  split; [exact Hok|]. split; [exact (Hempty Hok)|].
  split; [apply Hqueue; intros H; discriminate H|exact Hlog].
Defined.

Lemma savepoints_unwind_in_reverse_order_witness :
  ∃ sps w1,
    yield_each (replicate 3 tt) (λ _, pushSavepoint quiet_db) nested_context
      = (Ok sps, w1) ∧
    length sps = 3%nat ∧
    savepoints w1 = ["s1"; "s2"] ++ sps ∧
    (for_each (reverse sps) (commitSavepoint quiet_db) w1).1 = Ok tt ∧
    savepoints (for_each (reverse sps) (commitSavepoint quiet_db) w1).2 = ["s1"; "s2"].
Proof.
  destruct (savepoints_unwind_in_reverse_order quiet_db 3 nested_context
              quiet_db_never_raises) as (sps & w1 & H1 & H2 & H3 & H4 & H5 & _).
  exists sps, w1. exact (conj H1 (conj H2 (conj H3 (conj H4 H5)))).
Defined.

(** ** Scoped blocks inside one another *)

Section NestingProperties.

Variable db : Persistence.

Lemma with_savepoint_is_balanced {A} (body : M A) :
  never_raises db → balanced body → balanced (with_savepoint db body).
Proof.
  intros Hnever Hbal w.
  destruct (with_savepoint_balanced db body w Hnever Hbal)
    as (sc0 & w0 & _ & _ & Hout). cbv zeta in Hout.
  destruct Hout as (_ & Hstack & Hopen & _). done.
Qed.

(** Scoped savepoint blocks nest to any depth: in a persistence layer in
    which no call raises, around a block that leaves the savepoint stack and
    the transaction-management depth as it found them, any number of scopes
    inside one another leave both as they found them; the block runs with
    one more savepoint on the stack per scope, and its result or exception
    is the one of the whole statement. *)
Theorem nested_scopes_leave_nothing_open {A} (depth : nat) (body : M A) :
  never_raises db →
  balanced body →
  balanced (nested_scopes db depth body) ∧
  ∀ w, ∃ opened w0,
    (nested_scopes db depth body w).1 = (body w0).1 ∧
    savepoints w0 = savepoints w ++ opened ∧
    length opened = depth.
Proof.
  intros Hnever Hbal. induction depth as [|d [IHbal IHrun]]; simpl.
  - split; [done|]. intros w. exists [], w. by rewrite app_nil_r.
  - split; [by apply with_savepoint_is_balanced|]. intros w.
    destruct (with_savepoint_balanced db (nested_scopes db d body) w Hnever IHbal)
      as (sc0 & w1 & Hentry & _ & Hout). cbv zeta in Hout.
    destruct Hout as (Hres & _).
    pose proof (scope_entry_eq db w Hnever) as Heq. cbv zeta in Heq.
    rewrite Heq in Hentry. injection Hentry as Hsc Hw1.
    destruct (IHrun w1) as (opened & w0 & Hrun & Hstack & Hlen).
    exists (sc_savepoint sc0 :: opened), w0.
    split; [by rewrite Hres|]. split; [|by rewrite <- Hlen].
    rewrite Hstack, <- Hw1, <- Hsc. simpl. by rewrite <- app_assoc.
Qed.

(** A block that leaves another savepoint on top of the stack loses its
    outcome: in a persistence layer in which no call raises, the scoped
    statement then raises the stack-check [ValueError] whether the block
    returned or raised, issues no commit or rollback for its savepoint or
    for the outer transaction, still leaves transaction management if it
    entered it, and leaves the stack as the block left it. *)
Theorem unbalanced_block_loses_its_outcome {A} (body : M A)
    (sc : SavepointContext) (w w0 : world) :
  never_raises db →
  scope_entry db w = (Ok sc, w0) →
  last (savepoints (body w0).2) ≠ Some (sc_savepoint sc) →
  let out := with_savepoint db body w in
  out.1 = Raise (ValueError not_top_msg) ∧
  savepoints out.2 = savepoints (body w0).2 ∧
  tx_log out.2 =
    tx_log (body w0).2
    ++ match (body w0).1 with
       | Ok _ => CWrite <$> queuedSaves (body w0).2
       | Raise _ => []
       end
    ++ release_calls sc.
Proof.
  intros Hnever Hentry Hnot. simpl. rewrite with_savepoint_eq, Hentry.
  apply is_top_false in Hnot.
  destruct (body w0) as [[a|raised] w1]; simpl in Hnot |- *.
  - pose proof (exit_result db sc None w1 Hnever) as Hres.
    pose proof (exit_log db sc None w1) as Hlog. cbv zeta in Hlog.
    simpl in Hres, Hlog. rewrite commitSavepoint_eq in Hres, Hlog.
    simpl in Hres, Hlog. rewrite Hnot in Hres, Hlog. simpl in Hres, Hlog.
    destruct Hlog as (Hstack & _ & _ & Hcalls).
    destruct (SavepointContext__exit__ db sc None w1) as [[[]|e] w2];
      simpl in *; [done|].
    injection Hres as ->. split; [done|]. split; [done|].
    rewrite Hcalls. by rewrite <- app_assoc.
  - pose proof (exit_result db sc (Some raised) w1 Hnever) as Hres.
    pose proof (exit_log db sc (Some raised) w1) as Hlog. cbv zeta in Hlog.
    simpl in Hres, Hlog. rewrite rollbackSavepoint_eq in Hres, Hlog.
    simpl in Hres, Hlog. rewrite Hnot in Hres, Hlog. simpl in Hres, Hlog.
    destruct Hlog as (Hstack & _ & _ & Hcalls).
    destruct (SavepointContext__exit__ db sc (Some raised) w1) as [[[]|e] w2];
      simpl in *; [done|].
    injection Hres as ->. split; [done|]. by split.
Qed.

End NestingProperties.

Lemma nested_scopes_leave_nothing_open_witness :
  balanced (nested_scopes quiet_db 3 (ret 5)) ∧
  ∃ opened w0,
    (nested_scopes quiet_db 3 (ret 5) fresh_context).1 = (ret 5 w0).1 ∧
    savepoints w0 = savepoints fresh_context ++ opened ∧
    length opened = 3%nat.
Proof.
  destruct (nested_scopes_leave_nothing_open quiet_db 3 (ret 5)
              quiet_db_never_raises (ret_balanced 5)) as [Hbal Hrun].
  exact (conj Hbal (Hrun fresh_context)).
Defined.

Lemma unbalanced_block_loses_its_outcome_witness :
  (with_savepoint quiet_db (pushSavepoint quiet_db ;; @raise unit (UserError 0))
     fresh_context).1
    = Raise (ValueError not_top_msg) ∧
  savepoints (with_savepoint quiet_db (pushSavepoint quiet_db ;; @raise unit (UserError 0))
                fresh_context).2
    = ["s2"; "s3"].
Proof.
  destruct (unbalanced_block_loses_its_outcome quiet_db
              (pushSavepoint quiet_db ;; @raise unit (UserError 0))
              (mkSavepointContext "s2" true) fresh_context
              (World ∅ ["s2"] [] true
                 [CEnterTransactionManagement; CManaged true; CSavepoint] 0)
              quiet_db_never_raises) as (H1 & H2 & _).
  - vm_compute. reflexivity.
  - vm_compute. intros H. discriminate H.
  - exact (conj H1 H2).
Defined.

(** ** The two walks over the parent classes *)

Lemma ancestor_links_queue (m : Model) :
  ancestor_links m = queue_links (meta_parents m).
Proof.
  destruct m as [n p fs ps]. simpl. unfold queue_links.
  induction ps as [|[parent link] ps IH]; simpl; [done|]. by rewrite IH.
Qed.

Lemma queue_links_app (q1 q2 : list (Model * Field)) :
  queue_links (q1 ++ q2) = queue_links q1 ++ queue_links q2.
Proof. unfold queue_links. apply flat_map_app. Qed.

Lemma parents_loop_spec (n : nat) :
  ∀ (queue : list (Model * Field)) (names : gset string) (classes : list Model)
    (parentClass : option Model) (stack : list string),
    (queue_size queue ≤ n)%nat →
    ∃ visited,
      parents_loop queue names classes parentClass =
        (names ∪ list_to_set (link_name <$> queue_links queue),
         classes ++ visited,
         from_option Some parentClass (last visited)) ∧
      visited ≡ₚ (queue_links queue).*1 ∧
      classnames_loop queue.*1 stack = stack ++ (mname <$> visited).
Proof.
  induction n as [|n IH]; intros queue names classes parentClass stack Hn.
  - destruct queue as [|[[name pkf fs ps] link] queue].
    + exists []. simp parents_loop classnames_loop. simpl.
      rewrite !app_nil_r. split; [|done]. by rewrite (right_id_L ∅ (∪)).
    + unfold queue_size in Hn. simpl in Hn. lia.
  - destruct queue as [|[parent link] queue].
    + exists []. simp parents_loop classnames_loop. simpl.
      rewrite !app_nil_r. split; [|done]. by rewrite (right_id_L ∅ (∪)).
    + simp parents_loop. simpl. simp classnames_loop.
      destruct (IH (queue ++ meta_parents parent) (names ∪ {[fname link +:+ "__pk"]})
                  (classes ++ [parent]) (Some parent) (stack ++ [mname parent]))
        as (visited & Hloop & Hperm & Hnames).
      { unfold queue_size in *. rewrite map_app, list_sum_app.
        destruct parent as [name pkf fs ps]. simpl in *. lia. }
      exists (parent :: visited). rewrite Hloop. split; [|split].
      * rewrite queue_links_app, fmap_app, list_to_set_app_L.
        rewrite ancestor_links_queue.
        change (queue_links ((parent, link) :: queue))
          with ((parent, link) :: queue_links (meta_parents parent) ++ queue_links queue).
        f_equal; [f_equal|].
        -- change (list_fmap _ _ link_name ?l) with (link_name <$> l).
           rewrite fmap_app, list_to_set_app_L.
           change (link_name (parent, link)) with (fname link +:+ "__pk").
           rewrite <- !(assoc_L (∪)). f_equal. f_equal. apply (comm_L (∪)).
        -- by rewrite <- app_assoc.
        -- rewrite last_cons. by destruct (last visited).
      * rewrite Hperm, queue_links_app, fmap_app.
        change (queue_links ((parent, link) :: queue))
          with ((parent, link) :: ancestor_links parent ++ queue_links queue).
        change (list_fmap _ _ fst ?l) with (l.*1).
        rewrite ancestor_links_queue, fmap_app.
        constructor. apply Permutation_app_comm.
      * rewrite <- fmap_app, Hnames, <- app_assoc. done.
Qed.

Lemma contribute_to_class_spec (m : Model) :
  ∃ visited,
    visited ≡ₚ (ancestor_links m).*1 ∧
    classnames_loop (meta_parents m).*1 [mname m] = mname m :: (mname <$> visited) ∧
    contribute_to_class m =
      let names := {[ "pk" ]} ∪ list_to_set (link_name <$> ancestor_links m) in
      let own names : gset string :=
        match meta_pk m with
        | Some f => names ∪ {[ fname f ]}
        | None => names
        end in
      let one_to_one :=
        foldl (λ d f, <[ fname f +:+ "__pk" := f ]> d) ∅
              (filter (λ f, is_one_to_one f = true) (meta_fields m)) in
      match last visited with
      | Some root =>
          match meta_pk root with
          | Some f => Fine (mkManager m (own (names ∪ {[ fname f ]})) (reverse visited)
                              one_to_one)
          | None => AttributeError
          end
      | None => Fine (mkManager m (own names) (reverse visited) one_to_one)
      end.
Proof.
  destruct (parents_loop_spec (queue_size (meta_parents m)) (meta_parents m)
              {[ "pk" ]} [] None [mname m]) as (visited & Hloop & Hperm & Hnames);
    [done|].
  exists visited. rewrite ancestor_links_queue. split; [done|]. split; [done|].
  unfold contribute_to_class. rewrite Hloop. simpl.
  destruct (last visited) as [root|]; simpl; [|done].
  by destruct (meta_pk root).
Qed.

(** [contribute_to_class] visits every ancestor of the class, once for each
    path of parent links that leads to it, and nothing else:
    [parentEntityClasses] is a rearrangement of the ancestors.  It fails
    only if some ancestor has no primary key field; when every ancestor has
    one it returns a manager. *)
Theorem contribute_to_class_visits_every_ancestor (m : Model) :
  match contribute_to_class m with
  | Fine objects =>
      model objects = m ∧
      parentEntityClasses objects ≡ₚ (ancestor_links m).*1
  | AttributeError =>
      ∃ ancestor, ancestor ∈ (ancestor_links m).*1 ∧ meta_pk ancestor = None
  end ∧
  ((∀ ancestor, ancestor ∈ (ancestor_links m).*1 → is_Some (meta_pk ancestor)) →
   ∃ objects, contribute_to_class m = Fine objects).
Proof.
  destruct (contribute_to_class_spec m) as (visited & Hperm & _ & Hc).
  cbv zeta in Hc. rewrite Hc. clear Hc.
  destruct (last visited) as [root|] eqn:Hlast.
  - assert (Hin : root ∈ (ancestor_links m).*1).
    { rewrite <- Hperm. by apply last_Some_elem_of. }
    destruct (meta_pk root) as [f|] eqn:Hpk.
    + split; [|by eexists]. split; [done|]. simpl.
      by rewrite reverse_Permutation.
    + split; [by exists root|]. intros Hall.
      destruct (Hall root Hin) as [f Hf]. by rewrite Hf in Hpk.
  - split; [|by eexists]. split; [done|]. simpl. by rewrite reverse_Permutation.
Qed.

(** The names [get] accepts as primary-key lookups are: ["pk"], for every
    ancestor the name of the link field that leads to it followed by
    ["__pk"], the name of the primary key of the ancestor visited last (the
    first of [parentEntityClasses]), and the name of the class's own
    primary key; no others. *)
Theorem pkAttNames_content (m : Model) (objects : ContextAwareManager) (x : string) :
  contribute_to_class m = Fine objects →
  x ∈ pkAttNames objects ↔
    x = "pk" ∨
    (∃ ancestor link, (ancestor, link) ∈ ancestor_links m ∧ x = fname link +:+ "__pk") ∨
    (∃ root f, head (parentEntityClasses objects) = Some root ∧
               meta_pk root = Some f ∧ x = fname f) ∨
    (∃ f, meta_pk m = Some f ∧ x = fname f).
Proof.
  destruct (contribute_to_class_spec m) as (visited & _ & _ & Hc).
  cbv zeta in Hc. rewrite Hc. clear Hc. intros Hfine.
  assert (Hlinks : ∀ y, y ∈ (list_to_set (link_name <$> ancestor_links m) : gset string) ↔
            ∃ ancestor link, (ancestor, link) ∈ ancestor_links m ∧
                             y = fname link +:+ "__pk").
  { intros y. rewrite elem_of_list_to_set, list_elem_of_fmap. split.
    - intros ([ancestor link] & -> & Hin). by exists ancestor, link.
    - intros (ancestor & link & Hin & ->). by exists (ancestor, link). }
  destruct (last visited) as [root|] eqn:Hlast.
  - destruct (meta_pk root) as [f|] eqn:Hroot; [|done].
    injection Hfine as <-. simpl. rewrite head_reverse, Hlast.
    destruct (meta_pk m) as [own|] eqn:Hown;
      rewrite ?elem_of_union, !elem_of_singleton, Hlinks; split.
    + intros [[[?|?]|?]|?]; [by left|by right; left| |].
      * right; right; left. by exists root, f.
      * right; right; right. by exists own.
    + intros [?|[?|[(r & g & [= <-] & Hg & ->)|(g & [= <-] & ->)]]].
      * by left; left; left.
      * by left; left; right.
      * left; right. rewrite Hroot in Hg. by injection Hg as <-.
      * by right.
    + intros [[?|?]|?]; [by left|by right; left|].
      right; right; left. by exists root, f.
    + intros [?|[?|[(r & g & [= <-] & Hg & ->)|(g & Hg & _)]]]; [| | |done].
      * by left; left.
      * by left; right.
      * right. rewrite Hroot in Hg. by injection Hg as <-.
  - injection Hfine as <-. simpl. rewrite head_reverse, Hlast.
    destruct (meta_pk m) as [own|] eqn:Hown;
      rewrite ?elem_of_union, !elem_of_singleton, Hlinks; split.
    + intros [[?|?]|?]; [by left|by right; left|].
      right; right; right. by exists own.
    + intros [?|[?|[(r & g & Hr & _)|(g & [= <-] & ->)]]]; [| |done|].
      * by left; left.
      * by left; right.
      * by right.
    + intros [?|?]; [by left|by right; left].
    + intros [?|[?|[(r & g & Hr & _)|(g & Hg & _)]]]; [| |done|done].
      * by left.
      * by right.
Qed.

Lemma pkAttNames_content_witness :
  "mid_ptr__pk" ∈ pkAttNames leaf_objects ↔
    "mid_ptr__pk" = "pk" ∨
    (∃ ancestor link, (ancestor, link) ∈ ancestor_links leaf_model ∧
                      "mid_ptr__pk" = fname link +:+ "__pk") ∨
    (∃ root f, head (parentEntityClasses leaf_objects) = Some root ∧
               meta_pk root = Some f ∧ "mid_ptr__pk" = fname f) ∨
    (∃ f, meta_pk leaf_model = Some f ∧ "mid_ptr__pk" = fname f).
Proof. apply (pkAttNames_content leaf_model leaf_objects "mid_ptr__pk"). reflexivity. Defined.

(** [parentClassnamesForEntity], on a class it has not seen, returns the
    name of the class followed by the names of its ancestors in the order in
    which [contribute_to_class] visits them, the reverse of
    [parentEntityClasses], and stores the list under the class name.  After
    that the answer for that name is fixed: any class of the same name, with
    whatever parents, gets the stored list, and the cache no longer changes;
    the entries of other names are left alone. *)
Theorem parentClassnamesForEntity_caches_by_name
    (s_concreteParents : gmap string (list string)) (entity_class : Model) :
  let out := parentClassnamesForEntity s_concreteParents entity_class in
  (s_concreteParents !! mname entity_class = None →
   ∀ objects, contribute_to_class entity_class = Fine objects →
     out.2 = mname entity_class :: (mname <$> reverse (parentEntityClasses objects))) ∧
  (∀ cached, s_concreteParents !! mname entity_class = Some cached →
     out = (s_concreteParents, cached)) ∧
  out.1 !! mname entity_class = Some out.2 ∧
  (∀ other, mname other = mname entity_class →
     parentClassnamesForEntity out.1 other = out) ∧
  (∀ name, name ≠ mname entity_class → out.1 !! name = s_concreteParents !! name).
Proof.
  simpl. unfold parentClassnamesForEntity.
  destruct (s_concreteParents !! mname entity_class) as [cached|] eqn:Hc; simpl.
  - split; [done|]. split; [by intros ? [= <-]|]. split; [done|].
    split; [|done]. intros other ->. by rewrite Hc.
  - split.
    { intros _ objects Hfine.
      destruct (contribute_to_class_spec entity_class) as (visited & _ & Hnames & Hspec).
      cbv zeta in Hspec. rewrite Hspec in Hfine. rewrite Hnames.
      destruct (last visited) as [root|].
      - destruct (meta_pk root); [|done]. injection Hfine as <-. simpl.
        by rewrite reverse_involutive.
      - injection Hfine as <-. simpl. by rewrite reverse_involutive. }
    split; [done|]. split; [apply lookup_insert_eq|].
    split.
    + intros other ->. by rewrite lookup_insert_eq.
    + intros name Hne. by apply lookup_insert_ne.
Qed.

Lemma parentClassnamesForEntity_caches_by_name_witness :
  (parentClassnamesForEntity ∅ leaf_model).2 = ["Leaf"; "Mid"; "Base"] ∧
  parentClassnamesForEntity (parentClassnamesForEntity ∅ leaf_model).1
      (mkModel "Leaf" None [] [])
    = parentClassnamesForEntity ∅ leaf_model.
Proof.
  destruct (parentClassnamesForEntity_caches_by_name ∅ leaf_model)
    as (Hfresh & _ & _ & Hsame & _).
  split.
  - exact (Hfresh eq_refl leaf_objects eq_refl).
  - exact (Hsame (mkModel "Leaf" None [] []) eq_refl).
Defined.

Lemma one_to_one_fold (fields : list Field) :
  ∀ (d : gmap string Field) (k : string) (f : Field),
    foldl (λ d f, <[ fname f +:+ "__pk" := f ]> d) d fields !! k = Some f →
    d !! k = Some f ∨ (f ∈ fields ∧ k = fname f +:+ "__pk").
Proof.
  induction fields as [|g fields IH]; intros d k f Hl; simpl in Hl; [by left|].
  apply IH in Hl as [Hl|[Hin ->]].
  - destruct (decide (fname g +:+ "__pk" = k)) as [<-|Hne].
    + rewrite lookup_insert_eq in Hl. injection Hl as <-. right. split; [by left|done].
    + rewrite lookup_insert_ne in Hl by done. by left.
  - right. split; [by right|done].
Qed.

Lemma one_to_one_fold_bound (fields : list Field) :
  ∀ (d : gmap string Field) (k : string),
    is_Some (d !! k) ∨ (∃ f, f ∈ fields ∧ k = fname f +:+ "__pk") →
    is_Some (foldl (λ d f, <[ fname f +:+ "__pk" := f ]> d) d fields !! k).
Proof.
  induction fields as [|g fields IH]; intros d k H; simpl.
  - destruct H as [H|(f & Hin & _)]; [done|]. by apply elem_of_nil in Hin.
  - apply IH. destruct H as [H|(f & Hin & ->)].
    + left. destruct (decide (fname g +:+ "__pk" = k)) as [<-|Hne].
      * by rewrite lookup_insert_eq.
      * by rewrite lookup_insert_ne.
    + apply elem_of_cons in Hin as [->|Hin].
      * left. by rewrite lookup_insert_eq.
      * right. by exists f.
Qed.

Lemma string_length_append (s t : string) :
  String.length (s +:+ t) = (String.length s + String.length t)%nat.
Proof. induction s as [|c s IH]; simpl; [done|]. by rewrite IH. Qed.

Lemma string_append_inj_r (s1 s2 t : string) : s1 +:+ t = s2 +:+ t → s1 = s2.
Proof.
  revert s2. induction s1 as [|c s1 IH]; intros [|c2 s2] H.
  - done.
  - apply (f_equal String.length) in H.
    rewrite !string_length_append in H. simpl in H. lia.
  - apply (f_equal String.length) in H.
    rewrite !string_length_append in H. simpl in H. lia.
  - simpl in H. injection H as -> H. f_equal. by apply IH.
Qed.

(** [oneToOneAttNames] has an entry exactly for the fields of the class that
    are relations to a single object and are not parent links: the entry for
    such a field is filed under its name followed by ["__pk"] and holds a
    field of that name and kind (the last one listed, if several share the
    name); plain fields, parent links and relations to many objects have no
    entry. *)
Theorem oneToOneAttNames_content (m : Model) (objects : ContextAwareManager) :
  contribute_to_class m = Fine objects →
  (∀ k f, oneToOneAttNames objects !! k = Some f →
          f ∈ meta_fields m ∧ k = fname f +:+ "__pk" ∧
          ∃ r, rel f = Some r ∧ multiple r = false ∧ parent_link r = false) ∧
  (∀ f, f ∈ meta_fields m → is_one_to_one f = true →
        ∃ g, oneToOneAttNames objects !! (fname f +:+ "__pk") = Some g ∧
             fname g = fname f ∧ is_one_to_one g = true).
Proof.
  destruct (contribute_to_class_spec m) as (visited & _ & _ & Hc).
  cbv zeta in Hc. rewrite Hc. clear Hc. intros Hfine.
  assert (Hmap : oneToOneAttNames objects =
            foldl (λ d f, <[ fname f +:+ "__pk" := f ]> d) ∅
                  (filter (λ f, is_one_to_one f = true) (meta_fields m))).
  { destruct (last visited) as [root|].
    - destruct (meta_pk root); [|done]. by injection Hfine as <-.
    - by injection Hfine as <-. }
  rewrite Hmap. clear Hmap Hfine.
  assert (Hentry : ∀ k f,
            foldl (λ d f, <[ fname f +:+ "__pk" := f ]> d) (∅ : gmap string Field)
                  (filter (λ f, is_one_to_one f = true) (meta_fields m)) !! k = Some f →
            f ∈ meta_fields m ∧ k = fname f +:+ "__pk" ∧ is_one_to_one f = true).
  { intros k f Hl. apply one_to_one_fold in Hl as [Hl|[Hin ->]].
    - by rewrite lookup_empty in Hl.
    - apply list_elem_of_filter in Hin as [Hone Hin]. done. }
  split.
  - intros k f Hl. destruct (Hentry k f Hl) as (Hin & Hk & Hone).
    split; [done|]. split; [done|].
    unfold is_one_to_one in Hone. destruct (rel f) as [r|]; [|done].
    exists r. apply andb_true_iff in Hone as [H1 H2].
    split; [done|]. by split; apply negb_true_iff.
  - intros f Hin Hone.
    destruct (one_to_one_fold_bound
                (filter (λ f, is_one_to_one f = true) (meta_fields m)) ∅
                (fname f +:+ "__pk")) as [g Hg].
    { right. exists f. split; [|done]. by apply list_elem_of_filter. }
    exists g. split; [done|].
    destruct (Hentry _ g Hg) as (_ & Hk & Hg1).
    split; [|done]. symmetry. by apply (string_append_inj_r _ _ "__pk").
Qed.

Lemma oneToOneAttNames_content_witness :
  ∃ g, oneToOneAttNames leaf_objects !! "owner__pk" = Some g ∧
       fname g = "owner" ∧ is_one_to_one g = true.
Proof.
  destruct (oneToOneAttNames_content leaf_model leaf_objects eq_refl) as [_ H].
  apply (H owner_field).
  - vm_compute. right. left.
  - reflexivity.
Defined.

(** ** The criteria of [get] *)

Lemma substring_all (t : string) : String.substring 0 (String.length t) t = t.
Proof. induction t as [|c t IH]; simpl; [done|]. by rewrite IH. Qed.

Lemma substring_prefix (s t : string) :
  String.substring 0 (String.length s) (s +:+ t) = s.
Proof.
  induction s as [|c s IH]; simpl; [by destruct t|]. by rewrite IH.
Qed.

Lemma substring_suffix (s t : string) :
  String.substring (String.length s) (String.length t) (s +:+ t) = t.
Proof. induction s as [|c s IH]; simpl; [apply substring_all|done]. Qed.

Lemma endswith_append (k suffix : string) : endswith (k +:+ suffix) suffix = true.
Proof.
  unfold endswith. rewrite string_length_append.
  replace (String.length k + String.length suffix - String.length suffix)%nat
    with (String.length k) by lia.
  rewrite substring_suffix, String.eqb_refl, andb_true_r.
  apply Nat.leb_le. lia.
Qed.

Lemma drop_suffix_append (k suffix : string) : drop_suffix (k +:+ suffix) suffix = k.
Proof.
  unfold drop_suffix. rewrite string_length_append.
  replace (String.length k + String.length suffix - String.length suffix)%nat
    with (String.length k) by lia.
  apply substring_prefix.
Qed.

Lemma strip_exact_append (base : string) : strip_exact (base +:+ "__exact") = base.
Proof. unfold strip_exact. by rewrite endswith_append, drop_suffix_append. Qed.

(** A criterion name with a trailing ["__exact"] is compared as the name
    without it: [get] removes the suffix once, whatever precedes it, and
    leaves a name that does not end with it as it is; a name that ends with
    the suffix twice keeps one. *)
Theorem strip_exact_removes_one_suffix (base : string) :
  strip_exact (base +:+ "__exact") = base ∧
  strip_exact ((base +:+ "__exact") +:+ "__exact") = base +:+ "__exact" ∧
  (endswith base "__exact" = false → strip_exact base = base) ∧
  (endswith base "__exact" = true →
   strip_exact base +:+ "__exact" = base ∧
   String.length (strip_exact base) = (String.length base - 7)%nat).
Proof.
  split; [apply strip_exact_append|]. split; [apply strip_exact_append|].
  split.
  - intros H. unfold strip_exact. by rewrite H.
  - intros H. unfold strip_exact. rewrite H.
    unfold endswith in H. apply andb_true_iff in H as [Hlen Heq].
    apply Nat.leb_le in Hlen. apply String.eqb_eq in Heq.
    assert (Hsplit : ∀ (n : nat) (s : string), (n ≤ String.length s)%nat →
              String.substring 0 n s
                +:+ String.substring n (String.length s - n) s = s ∧
              String.length (String.substring 0 n s) = n).
    { clear. induction n as [|n IH]; intros s Hn.
      - simpl. rewrite Nat.sub_0_r.
        split; [|by destruct s]. destruct s as [|c s]; [done|].
        simpl. by rewrite substring_all.
      - destruct s as [|c s]; simpl in Hn; [lia|].
        destruct (IH s) as [IH1 IH2]; [lia|]. simpl.
        split; [exact (f_equal (String c) IH1)|exact (f_equal S IH2)]. }
    destruct (Hsplit (String.length base - String.length "__exact")%nat base)
      as [Hcat Hl]; [lia|].
    replace (String.length base - (String.length base - String.length "__exact"))%nat
      with (String.length "__exact") in Hcat by lia.
    rewrite Heq in Hcat. unfold drop_suffix. split; [exact Hcat|exact Hl].
Qed.

Lemma strip_exact_removes_one_suffix_witness :
  strip_exact "pk__exact" = "pk" ∧ strip_exact "owner__pk" = "owner__pk".
Proof.
  destruct (strip_exact_removes_one_suffix "pk") as (H1 & _).
  destruct (strip_exact_removes_one_suffix "owner__pk") as (_ & _ & H2 & _).
  exact (conj H1 (H2 eq_refl)).
Defined.




(** ** Rows of a query *)

Lemma yield_each_cons {A B} (x : A) (xs : list A) (f : A → M B) (w : world) :
  yield_each (x :: xs) f w =
  match f x w with
  | (Ok y, w1) => match yield_each xs f w1 with
                  | (Ok ys, w2) => (Ok (y :: ys), w2)
                  | (Raise e, w2) => (Raise e, w2)
                  end
  | (Raise e, w1) => (Raise e, w1)
  end.
Proof. reflexivity. Qed.

Lemma regd_row (row : Entity) (w : world) :
  registry_ok w →
  ∃ r w1,
    regd (Some row) w = (Ok (Some r), w1) ∧
    registry_ok w1 ∧
    pkRegistry w ⊆ pkRegistry w1 ∧
    canonical_for (pkRegistry w1) row r.
Proof.
  intros Hok. destruct (isRegisterable (Some row)) eqn:Hreg.
  - destruct (pkRegistry w !! regkey row) as [c|] eqn:Hk.
    + exists c, w. rewrite (regd_cached row c w Hreg Hk).
      destruct (Hok _ _ Hk) as [Hkey _].
      split; [done|]. split; [done|]. split; [done|].
      split; [done|]. split; [done|]. by rewrite Hreg.
    + exists row, (set_pkRegistry (insert (regkey row) row) w).
      pose proof (regd_keeps_registry_ok (Some row) w Hok) as Hok1.
      pose proof (regd_registry_grows (Some row) w) as Hgrow.
      rewrite (regd_stored row w Hreg Hk) in Hok1, Hgrow |- *.
      split; [done|]. split; [done|]. split; [done|].
      split; [done|]. split; [|done]. intros _. simpl. apply lookup_insert_eq.
  - exists row, w. rewrite (regd_not_registerable (Some row) w Hreg).
    split; [done|]. split; [done|]. split; [done|].
    split; [done|]. split; [|done]. by rewrite Hreg.
Qed.

Lemma registering_rows (rows : list Entity) :
  ∀ w, registry_ok w →
    ∃ yielded w',
      yield_each rows (λ result, regd (Some result)) w = (Ok (Some <$> yielded), w') ∧
      registry_ok w' ∧
      pkRegistry w ⊆ pkRegistry w' ∧
      Forall2 (canonical_for (pkRegistry w')) rows yielded.
Proof.
  induction rows as [|row rows IH]; intros w Hok.
  - exists [], w. split; [done|]. split; [done|]. split; [done|]. constructor.
  - destruct (regd_row row w Hok) as (r & w1 & Hregd & Hok1 & Hgrow1 & Hcan).
    destruct (IH w1 Hok1) as (yielded & w' & Hrun & Hok' & Hgrow' & Hall).
    exists (r :: yielded), w'. rewrite yield_each_cons, Hregd, Hrun.
    split; [done|]. split; [done|]. split; [by trans (pkRegistry w1)|].
    constructor; [|done].
    destruct Hcan as (Hkey & Hbound & Hsame).
    split; [done|]. split; [|done].
    intros Hreg. eapply lookup_weaken; [by apply Hbound|done].
Qed.

(** A [RegisteringQuerySet] created in a context yields, for the rows of its
    query, instances of the same keys in the same order: for a row that
    passes the registration test the instance registered under its key, so
    that two rows of one key come out as one object, and any other row as it
    is.  Created outside a context it yields the rows as they are and
    registers nothing, even if a context exists when it is iterated.  An
    exception of the query passes through. *)
Theorem iterator_yields_the_registered_instances
    (super_iterator : M (list Entity)) (w : world) :
  (∀ rows w1,
     super_iterator w = (Ok rows, w1) →
     RegisteringQuerySet_iterator false super_iterator w = (Ok (Some <$> rows), w1)) ∧
  (∀ e w1 self_context,
     super_iterator w = (Raise e, w1) →
     RegisteringQuerySet_iterator self_context super_iterator w = (Raise e, w1)) ∧
  (∀ rows w1,
     super_iterator w = (Ok rows, w1) →
     registry_ok w1 →
     ∃ yielded w2,
       RegisteringQuerySet_iterator true super_iterator w
         = (Ok (Some <$> yielded), w2) ∧
       pkRegistry w1 ⊆ pkRegistry w2 ∧
       Forall2 (canonical_for (pkRegistry w2)) rows yielded ∧
       ∀ i j a b x y,
         rows !! i = Some a → rows !! j = Some b →
         yielded !! i = Some x → yielded !! j = Some y →
         regkey a = regkey b →
         isRegisterable (Some a) = true → isRegisterable (Some b) = true →
         x = y).
Proof.
  split; [|split].
  - intros rows w1 Hq. unfold RegisteringQuerySet_iterator, bind. rewrite Hq.
    clear Hq. revert w1. induction rows as [|row rows IH]; intros w1; [done|].
    rewrite yield_each_cons. simpl. by rewrite IH.
  - intros e w1 self_context Hq.
    unfold RegisteringQuerySet_iterator, bind. by rewrite Hq.
  - intros rows w1 Hq Hok.
    destruct (registering_rows rows w1 Hok) as (yielded & w2 & Hrun & _ & Hgrow & Hall).
    exists yielded, w2.
    unfold RegisteringQuerySet_iterator, bind. rewrite Hq.
    split; [done|]. split; [done|]. split; [done|].
    intros i j a b x y Ha Hb Hx Hy Hkey Hra Hrb.
    destruct (Forall2_lookup_lr _ _ _ _ _ _ Hall Ha Hx) as (_ & Hxa & _).
    destruct (Forall2_lookup_lr _ _ _ _ _ _ Hall Hb Hy) as (_ & Hyb & _).
    specialize (Hxa Hra). specialize (Hyb Hrb). rewrite Hkey in Hxa. congruence.
Qed.

Lemma iterator_yields_the_registered_instances_witness :
  ∃ yielded w2,
    RegisteringQuerySet_iterator true (ret [order_A; order_unsaved; order_D])
        empty_context
      = (Ok (Some <$> yielded), w2) ∧
    Forall2 (canonical_for (pkRegistry w2)) [order_A; order_unsaved; order_D] yielded.
Proof.
  destruct (iterator_yields_the_registered_instances
              (ret [order_A; order_unsaved; order_D]) empty_context)
    as (_ & _ & H).
  destruct (H [order_A; order_unsaved; order_D] empty_context eq_refl)
    as (yielded & w2 & H1 & _ & H2 & _).
  - by apply registry_ok_empty.
  - exists yielded, w2. exact (conj H1 H2).
Defined.

Section RegisterParentsProperties.

Variable table : string → list pyval.

Variable type_policy : string → policy.

(** [registerParents] on a query set created outside a context does nothing
    and does not run the query.  On one created in a context it runs the
    query, passing its exception through, and otherwise returns a clone
    without raising; afterwards every row of the query that passes the
    registration test has an instance under its key, and for every such row
    and every class of [parentEntityClasses] that stores a row of that
    primary key which passes the test, an instance is registered under the
    class name and that key; nothing registered before is displaced. *)
Theorem registerParents_registers_rows_and_ancestors
    (objects : ContextAwareManager) (super_iterator : M (list Entity)) (w : world) :
  RegisteringQuerySet_registerParents table type_policy false objects super_iterator w
    = (Ok false, w) ∧
  (∀ e w1,
     super_iterator w = (Raise e, w1) →
     RegisteringQuerySet_registerParents table type_policy true objects super_iterator w
       = (Raise e, w1)) ∧
  (∀ rows w1,
     super_iterator w = (Ok rows, w1) →
     registry_ok w1 →
     let out := RegisteringQuerySet_registerParents table type_policy true objects
                  super_iterator w in
     out.1 = Ok true ∧
     pkRegistry w1 ⊆ pkRegistry out.2 ∧
     (∀ row, row ∈ rows → isRegisterable (Some row) = true →
             is_Some (pkRegistry out.2 !! regkey row)) ∧
     (∀ parentClass row,
        parentClass ∈ parentEntityClasses objects → row ∈ rows →
        pk row ∈ table (mname parentClass) →
        row_registerable type_policy (mname parentClass) (pk row) = true →
        is_Some (pkRegistry out.2 !! (mname parentClass, pk row)))).
Proof.
  split; [done|]. split.
  - intros e w1 Hq. unfold RegisteringQuerySet_registerParents, bind.
    unfold RegisteringQuerySet_iterator, bind. by rewrite Hq.
  - intros rows w1 Hq Hok.
    destruct (registering_rows rows w1 Hok) as (yielded & w2 & Hrun & _ & Hgrow & Hall).
    assert (Hit : RegisteringQuerySet_iterator true super_iterator w
                  = (Ok (Some <$> yielded), w2)).
    { unfold RegisteringQuerySet_iterator, bind. by rewrite Hq. }
    assert (Hsome : omap id (Some <$> yielded) = yielded).
    { clear. induction yielded as [|y ys IH]; [done|]. csimpl. by rewrite IH. }
    pose proof (register_parents_loop table type_policy (parentEntityClasses objects)
                  (pk <$> yielded) w2) as Hloop.
    cbv zeta in Hloop. destruct Hloop as (L1 & L2 & L3 & _).
    assert (Hout : RegisteringQuerySet_registerParents table type_policy true objects
                     super_iterator w
                   = match for_each (parentEntityClasses objects)
                             (register_parents_of table type_policy (pk <$> yielded)) w2
                     with
                     | (Ok _, w3) => (Ok true, w3)
                     | (Raise e, w3) => (Raise e, w3)
                     end).
    { unfold RegisteringQuerySet_registerParents, bind. rewrite Hit, Hsome.
      by rewrite registerParentEntities_unfold. }
    cbv zeta. rewrite Hout. clear Hout.
    destruct (for_each (parentEntityClasses objects)
                (register_parents_of table type_policy (pk <$> yielded)) w2)
      as [res w3]. simpl in L1, L2, L3. subst res. simpl.
    split; [done|]. split; [by trans (pkRegistry w2)|]. split.
    + intros row Hrow Hreg.
      apply list_elem_of_lookup in Hrow as [i Hi].
      destruct (Forall2_lookup_l _ _ _ _ _ Hall Hi) as (y & Hy & _ & Hbound & _).
      exists y. eapply lookup_weaken; [by apply Hbound|done].
    + intros parentClass row Hclass Hrow Htable Hpolicy.
      apply L3. exists parentClass. simpl.
      split; [done|]. split; [done|]. split; [done|]. split; [|done].
      apply list_elem_of_lookup in Hrow as [i Hi].
      destruct (Forall2_lookup_l _ _ _ _ _ Hall Hi) as (y & Hy & Hkey & _).
      apply list_elem_of_fmap. exists y. split.
      * by injection Hkey as _ ->.
      * by eapply list_elem_of_lookup_2.
Qed.

End RegisterParentsProperties.

Lemma registerParents_registers_rows_and_ancestors_witness :
  (RegisteringQuerySet_registerParents demo_table demo_policy true leaf_objects
     (ret [leaf_1; leaf_2]) demo_context).1 = Ok true ∧
  is_Some (pkRegistry (RegisteringQuerySet_registerParents demo_table demo_policy true
                         leaf_objects (ret [leaf_1; leaf_2]) demo_context).2
             !! ("Base", PyInt 2)).
Proof.
  destruct (registerParents_registers_rows_and_ancestors demo_table demo_policy
              leaf_objects (ret [leaf_1; leaf_2]) demo_context) as (_ & _ & H).
  destruct (H [leaf_1; leaf_2] demo_context eq_refl) as (H1 & _ & _ & H2).
  - by apply registry_ok_empty.
  - split; [exact H1|].
    apply (H2 base_model leaf_2).
    + vm_compute. left.
    + right. left.
    + vm_compute. right. left.
    + reflexivity.
Defined.

(** ** Failures of the persistence layer *)

Section PersistenceFailures.

Variable db : Persistence.

(** When the persistence layer raises in [savepoint], [savepoint_commit] or
    [savepoint_rollback], the exception passes through and the savepoint
    stack is left as it was: a failed push adds nothing, a failed commit or
    rollback leaves its savepoint on top, where the same call passes the
    stack check again.  The pending writes are gone all the same: executed
    before a failed push or commit, dropped before a failed rollback. *)
Theorem failed_persistence_call_keeps_the_stack (h : handle) (e : exn) (w : world) :
  (tx_raises db (tx_log w ++ (CWrite <$> queuedSaves w)) CSavepoint = Some e →
   let out := pushSavepoint db w in
   out.1 = Raise e ∧ savepoints out.2 = savepoints w ∧ queuedSaves out.2 = [] ∧
   writes_of (tx_log out.2) = writes_of (tx_log w) ++ queuedSaves w) ∧
  (last (savepoints w) = Some h →
   tx_raises db (tx_log w ++ (CWrite <$> queuedSaves w)) (CSavepointCommit h) = Some e →
   let out := commitSavepoint db h w in
   out.1 = Raise e ∧ savepoints out.2 = savepoints w ∧ queuedSaves out.2 = [] ∧
   writes_of (tx_log out.2) = writes_of (tx_log w) ++ queuedSaves w ∧
   is_top h (savepoints out.2) = true) ∧
  (last (savepoints w) = Some h →
   tx_raises db (tx_log w) (CSavepointRollback h) = Some e →
   let out := rollbackSavepoint db h w in
   out.1 = Raise e ∧ savepoints out.2 = savepoints w ∧ queuedSaves out.2 = [] ∧
   writes_of (tx_log out.2) = writes_of (tx_log w) ∧
   is_top h (savepoints out.2) = true).
Proof.
  split; [|split].
  - intros Hraise. simpl. rewrite pushSavepoint_eq. simpl. rewrite Hraise. simpl.
    split; [done|]. split; [done|]. split; [done|].
    rewrite !writes_of_app, writes_of_CWrite. simpl. by rewrite app_nil_r.
  - intros Htop Hraise. simpl. rewrite (commit_pops_on_top db h w Htop).
    simpl. rewrite Hraise. simpl.
    split; [done|]. split; [done|]. split; [done|]. split.
    + rewrite !writes_of_app, writes_of_CWrite. simpl. by rewrite app_nil_r.
    + by apply is_top_true.
  - intros Htop Hraise. simpl. rewrite (rollback_pops_on_top db h w Htop).
    rewrite Hraise. simpl.
    split; [done|]. split; [done|]. split; [done|]. split.
    + rewrite writes_of_app. simpl. by rewrite app_nil_r.
    + by apply is_top_true.
Qed.

(** A scope that enters transaction management and whose savepoint cannot
    be created leaves it entered: [__enter__] raises after
    [enter_transaction_management], so the block does not run, [__exit__] is
    not called and no [leave_transaction_management] is issued; the
    exception of [savepoint] passes through with one more level of
    transaction management open and the pending writes executed. *)
Theorem failed_scope_entry_leaves_management_entered {A} (body : M A) (e : exn)
    (w : world) :
  tx_managed db (tx_log w) = false →
  tx_raises db (tx_log w) CEnterTransactionManagement = None →
  tx_raises db (tx_log w ++ [CEnterTransactionManagement]) (CManaged true) = None →
  tx_raises db (tx_log w ++ [CEnterTransactionManagement; CManaged true]
                  ++ (CWrite <$> queuedSaves w)) CSavepoint = Some e →
  let out := with_savepoint db body w in
  out.1 = Raise e ∧
  savepoints out.2 = savepoints w ∧
  tx_log out.2 = tx_log w ++ [CEnterTransactionManagement; CManaged true]
                   ++ (CWrite <$> queuedSaves w) ++ [CSavepoint] ∧
  open_transactions (tx_log out.2) = (open_transactions (tx_log w) + 1)%Z.
Proof.
  intros Hmanaged Henter Hset Hsave.
  assert (Hout : with_savepoint db body w =
            (Raise e,
             World (pkRegistry w) (savepoints w) [] (s_instances w)
                   (tx_log w ++ [CEnterTransactionManagement; CManaged true]
                      ++ (CWrite <$> queuedSaves w) ++ [CSavepoint])
                   (next_oid w))).
  { unfold with_savepoint, SavepointContext__init__, transaction_is_managed.
    unfold bind at 1 2. simpl. rewrite Hmanaged. simpl.
    unfold SavepointContext__enter__. unfold bind at 1 2. simpl.
    unfold bind at 1 2. unfold tx_call at 1. simpl. rewrite Henter.
    unfold tx_call at 1. simpl. rewrite Hset.
    rewrite pushSavepoint_eq. simpl.
    assert (Hlog : ((tx_log w ++ [CEnterTransactionManagement]) ++ [CManaged true])
                     ++ (CWrite <$> queuedSaves w)
                   = tx_log w ++ [CEnterTransactionManagement; CManaged true]
                       ++ (CWrite <$> queuedSaves w)).
    { by rewrite <- !app_assoc. }
    rewrite Hlog, Hsave. unfold bind, fired, set_tx_log. simpl.
    rewrite Hlog. by rewrite <- !app_assoc. }
  cbv zeta. rewrite Hout. cbn [fst snd tx_log savepoints].
  split; [done|]. split; [done|]. split; [done|].
  rewrite !open_transactions_app, open_transactions_CWrite.
  unfold open_transactions. simpl. lia.
Qed.

End PersistenceFailures.

Lemma failed_persistence_call_keeps_the_stack_witness :
  (rollbackSavepoint rollback_failing_db "s3" three_deep).1 = Raise (DatabaseError 1) ∧
  savepoints (rollbackSavepoint rollback_failing_db "s3" three_deep).2
    = ["s1"; "s2"; "s3"] ∧
  queuedSaves (rollbackSavepoint rollback_failing_db "s3" three_deep).2 = [] ∧
  (pushSavepoint savepoint_failing_db three_deep).1 = Raise (DatabaseError 2) ∧
  savepoints (pushSavepoint savepoint_failing_db three_deep).2 = ["s1"; "s2"; "s3"].
Proof.
  destruct (failed_persistence_call_keeps_the_stack rollback_failing_db "s3"
              (DatabaseError 1) three_deep) as (_ & _ & Hrollback).
  destruct (Hrollback eq_refl eq_refl) as (H1 & H2 & H3 & _).
  destruct (failed_persistence_call_keeps_the_stack savepoint_failing_db "s3"
              (DatabaseError 2) three_deep) as (Hpush & _).
  destruct (Hpush eq_refl) as (H4 & H5 & _).
  exact (conj H1 (conj H2 (conj H3 (conj H4 H5)))).
Defined.

Lemma failed_scope_entry_leaves_management_entered_witness :
  (with_savepoint savepoint_failing_db (ret 5) fresh_context).1
    = Raise (DatabaseError 2) ∧
  tx_log (with_savepoint savepoint_failing_db (ret 5) fresh_context).2
    = [CEnterTransactionManagement; CManaged true; CSavepoint] ∧
  open_transactions (tx_log (with_savepoint savepoint_failing_db (ret 5) fresh_context).2)
    = 1%Z.
Proof.
  destruct (failed_scope_entry_leaves_management_entered savepoint_failing_db (ret 5)
              (DatabaseError 2) fresh_context eq_refl eq_refl eq_refl eq_refl)
    as (H1 & _ & H2 & H3).
  exact (conj H1 (conj H2 H3)).
Defined.
